(** * MelodyPlayer: a non-blocking melody player and metronome for the ESP32

    Shallow embedding of [lib/MelodyPlayer/MelodyPlayer.h] and
    [lib/MelodyPlayer/MelodyPlayer.cpp].  The player object is a record, the
    member functions are computations in a small reader/state/error monad:
    the reader part is what the hardware answers during one call
    ([millis()], [random()], the return value of [ledcWriteNote()]), the state
    part is the object together with the commands sent to the ledc
    peripheral, and the error part is the two ways the C++ code can leave
    defined behaviour (integer division by zero, reading outside the melody
    array). *)

From Stdlib Require Import Ascii String.
From Stdlib Require Import ZArith List Bool Lia.
Import ListNotations.
Open Scope Z_scope.

(** ** Fixed-width arithmetic *)

Module U32.

Definition modulus : Z := 2 ^ 32.

(** Conversion to [uint32_t]. *)
Definition wrap (z : Z) : Z := z mod modulus.

Definition mul (a b : Z) : Z := wrap (a * b).

Definition sub (a b : Z) : Z := wrap (a - b).

(** Unsigned division; [None] is the division by zero. *)
Definition div (a b : Z) : option Z :=
  if b =? 0 then None else Some (a / b).

End U32.

(** [uint8_t]: the type of the pin and of the ledc channel. *)
Module U8.

Definition modulus : Z := 2 ^ 8.

(** Conversion to [uint8_t]. *)
Definition wrap (z : Z) : Z := z mod modulus.

End U8.

(** ** What [Arduino.h] declares *)

(** [note_t] of the ledc driver; [NOTE_MAX] is the number of pitches. *)
Inductive note_t : Set :=
| NOTE_C | NOTE_Cs | NOTE_D | NOTE_Eb | NOTE_E | NOTE_F | NOTE_Fs
| NOTE_G | NOTE_Gs | NOTE_A | NOTE_Bb | NOTE_B | NOTE_MAX.

(** Calls that leave the program: the ledc peripheral and [delay()]. *)
Inductive Event : Set :=
| LedcSetup (channel freq resolution : Z)
| LedcAttachPin (pin channel : Z)
| LedcWriteNote (channel : Z) (note : note_t) (octave : Z)
| LedcWrite (channel duty : Z)
| Delay (ms : Z).

(** ** MelodyPlayer.h *)

Definition REST : note_t := NOTE_MAX.

Inductive TEMPO : Set :=
| LARGO | LARGHETTO | ADAGIO | ANDANTE | MODERATO | ALLEGRO | PRESTO | PRESTISSIMO.

Definition TEMPO_value (t : TEMPO) : Z :=
  match t with
  | LARGO => 50 | LARGHETTO => 63 | ADAGIO => 71 | ANDANTE => 92
  | MODERATO => 114 | ALLEGRO => 144 | PRESTO => 184 | PRESTISSIMO => 204
  end.

Inductive N_LEN : Set :=
| N64 | N32 | N32d | N16 | N16d | N8 | N8d | N4 | N4d | N2 | N2d | N1 | N1d.

Definition N_LEN_value (v : N_LEN) : Z :=
  match v with
  | N64 => 1 | N32 => 2 | N32d => 3 | N16 => 4 | N16d => 6 | N8 => 8
  | N8d => 12 | N4 => 16 | N4d => 24 | N2 => 32 | N2d => 48 | N1 => 64
  | N1d => 96
  end.

Definition N4_LEN : Z := 16.

Record musicNote : Set := mkNote { note : note_t; octave : Z; value : N_LEN }.

(** The private members of the class.  [_tempo] has type [TEMPO], an
    enumeration over [int] that [setTempo(int)] fills by a cast, so it is
    kept as the integer it holds.  [_melody] is a pointer: [None] is
    [nullptr]. *)
Record MelodyPlayer : Type := mkPlayer {
  _pin : Z;
  _channel : Z;
  _volume : Z;
  _msStart : Z;
  _msNoteGap : Z;
  _msPrevious : Z;
  _noteCounter : Z;
  _started : bool;
  _notePlayed : bool;
  _random : bool;
  _melodyLength : Z;
  _tempo : Z;
  _melody : option (list musicNote)
}.

Definition with_volume (v : Z) (p : MelodyPlayer) : MelodyPlayer :=
  mkPlayer (_pin p) (_channel p) v (_msStart p) (_msNoteGap p) (_msPrevious p)
           (_noteCounter p) (_started p) (_notePlayed p) (_random p)
           (_melodyLength p) (_tempo p) (_melody p).

Definition with_msStart (t : Z) (p : MelodyPlayer) : MelodyPlayer :=
  mkPlayer (_pin p) (_channel p) (_volume p) t (_msNoteGap p) (_msPrevious p)
           (_noteCounter p) (_started p) (_notePlayed p) (_random p)
           (_melodyLength p) (_tempo p) (_melody p).

Definition with_msNoteGap (g : Z) (p : MelodyPlayer) : MelodyPlayer :=
  mkPlayer (_pin p) (_channel p) (_volume p) (_msStart p) g (_msPrevious p)
           (_noteCounter p) (_started p) (_notePlayed p) (_random p)
           (_melodyLength p) (_tempo p) (_melody p).

Definition with_msPrevious (t : Z) (p : MelodyPlayer) : MelodyPlayer :=
  mkPlayer (_pin p) (_channel p) (_volume p) (_msStart p) (_msNoteGap p) t
           (_noteCounter p) (_started p) (_notePlayed p) (_random p)
           (_melodyLength p) (_tempo p) (_melody p).

Definition with_noteCounter (i : Z) (p : MelodyPlayer) : MelodyPlayer :=
  mkPlayer (_pin p) (_channel p) (_volume p) (_msStart p) (_msNoteGap p)
           (_msPrevious p) i (_started p) (_notePlayed p) (_random p)
           (_melodyLength p) (_tempo p) (_melody p).

Definition with_started (b : bool) (p : MelodyPlayer) : MelodyPlayer :=
  mkPlayer (_pin p) (_channel p) (_volume p) (_msStart p) (_msNoteGap p)
           (_msPrevious p) (_noteCounter p) b (_notePlayed p) (_random p)
           (_melodyLength p) (_tempo p) (_melody p).

Definition with_notePlayed (b : bool) (p : MelodyPlayer) : MelodyPlayer :=
  mkPlayer (_pin p) (_channel p) (_volume p) (_msStart p) (_msNoteGap p)
           (_msPrevious p) (_noteCounter p) (_started p) b (_random p)
           (_melodyLength p) (_tempo p) (_melody p).

Definition with_random (b : bool) (p : MelodyPlayer) : MelodyPlayer :=
  mkPlayer (_pin p) (_channel p) (_volume p) (_msStart p) (_msNoteGap p)
           (_msPrevious p) (_noteCounter p) (_started p) (_notePlayed p) b
           (_melodyLength p) (_tempo p) (_melody p).

Definition with_tempo (t : Z) (p : MelodyPlayer) : MelodyPlayer :=
  mkPlayer (_pin p) (_channel p) (_volume p) (_msStart p) (_msNoteGap p)
           (_msPrevious p) (_noteCounter p) (_started p) (_notePlayed p)
           (_random p) (_melodyLength p) t (_melody p).

Definition with_melody (m : option (list musicNote)) (len : Z)
    (p : MelodyPlayer) : MelodyPlayer :=
  mkPlayer (_pin p) (_channel p) (_volume p) (_msStart p) (_msNoteGap p)
           (_msPrevious p) (_noteCounter p) (_started p) (_notePlayed p)
           (_random p) len (_tempo p) m.

(** ** The monad of member functions *)

Inductive Fault : Set := DivideByZero | OutOfBounds.

Inductive Result (A : Type) : Type :=
| Done (a : A)
| Trap (f : Fault).
Arguments Done {A} a.
Arguments Trap {A} f.

(** What the board answers during one call of a member function.
    [millis_at k] is the time in milliseconds since boot at the [k]-th call
    of [millis()] (counted from 0); [millis()] returns it as a [uint32_t].
    [random_lt n] is the value of [random(n)].  [tone_set c n o] tells
    whether [ledcWriteNote(c, n, o)] returns a nonzero frequency. *)
Record Env : Type := mkEnv {
  millis_at : nat -> Z;
  random_lt : Z -> Z;
  tone_set : Z -> note_t -> Z -> bool
}.

Record Machine : Type := mkMachine {
  self : MelodyPlayer;
  reads : nat;
  sent : list Event
}.

Definition M (A : Type) : Type := Env -> Machine -> Result (A * Machine).

Definition ret {A} (a : A) : M A := fun _ s => Done (a, s).

Definition bind {A B} (c : M A) (k : A -> M B) : M B :=
  fun e s => match c e s with
             | Done (a, s') => k a e s'
             | Trap f => Trap f
             end.

Declare Scope player_scope.
Delimit Scope player_scope with player.
Notation "x <- c ;; k" := (bind c (fun x => k))
  (at level 61, c at next level, right associativity) : player_scope.
Notation "c ;; k" := (bind c (fun _ => k))
  (at level 61, right associativity) : player_scope.
Open Scope player_scope.

Definition trap {A} (f : Fault) : M A := fun _ _ => Trap f.

Definition this : M MelodyPlayer := fun _ s => Done (self s, s).

Definition update (f : MelodyPlayer -> MelodyPlayer) : M unit :=
  fun _ s => Done (tt, mkMachine (f (self s)) (reads s) (sent s)).

Definition emit (ev : Event) : M unit :=
  fun _ s => Done (tt, mkMachine (self s) (reads s) (sent s ++ [ev])).

Definition millis : M Z :=
  fun e s => Done (U32.wrap (millis_at e (reads s)),
                   mkMachine (self s) (S (reads s)) (sent s)).

Definition random (howbig : Z) : M Z :=
  fun e s => Done (random_lt e howbig, s).

Definition delay (ms : Z) : M unit := emit (Delay ms).

Definition ledcWrite (channel duty : Z) : M unit :=
  emit (LedcWrite channel duty).

Definition ledcWriteNote (channel : Z) (n : note_t) (oct : Z) : M bool :=
  emit (LedcWriteNote channel n oct) ;;
  fun e s => Done (tone_set e channel n oct, s).

Definition udiv (a b : Z) : M Z :=
  match U32.div a b with
  | Some q => ret q
  | None => trap DivideByZero
  end.

(** [m[i]] for a melody array of the notes [m]. *)
Definition index (m : list musicNote) (i : Z) : M musicNote :=
  if i <? 0 then trap OutOfBounds
  else match nth_error m (Z.to_nat i) with
       | Some n => ret n
       | None => trap OutOfBounds
       end.

(** ** MelodyPlayer.cpp *)

(** The constructor.  Its parameters are [uint8_t]: the integers that the
    caller passes for [pin] and [channel] are converted.  [len0] is the
    indeterminate initial value of the member [_melodyLength], which has
    no initialiser. *)
Definition MelodyPlayer_new (pin channel len0 : Z) : MelodyPlayer * list Event :=
  let p := mkPlayer (U8.wrap pin) (U8.wrap channel) 0 0 10 0 0 false false
                    false len0 (TEMPO_value MODERATO) None in
  (p, [LedcSetup (_channel p) 20000 8; LedcAttachPin (_pin p) (_channel p);
       LedcWrite (_channel p) (_volume p)]).

Definition setVolume (volume : Z) : M unit := update (with_volume volume).

Definition setTempo_preset (tempo : TEMPO) : M unit :=
  update (with_tempo (TEMPO_value tempo)).

Definition setLegato (msNoteGap : Z) : M unit :=
  update (with_msNoteGap (if msNoteGap <=? 100 then msNoteGap else 100)).

Definition setTempo (nBeats : Z) : M unit := update (with_tempo nBeats).

Definition setMelody (m : list musicNote) (len : Z) : M unit :=
  update (with_melody (Some m) len).

Definition mute : M unit :=
  p <- this ;; ledcWrite (_channel p) 0.

Definition setNormalMode : M unit := update (with_random false).

Definition setRandomMode : M unit := update (with_random true).

(** The right-hand side of the comparison in [playNote]:
    [60000 * (uint32_t)n.value / N4_LEN / (uint32_t)_tempo]. *)
Definition durationMs (v : N_LEN) (tempo : Z) : M Z :=
  a <- udiv (U32.mul 60000 (U32.wrap (N_LEN_value v))) N4_LEN ;;
  udiv a (U32.wrap tempo).

Definition playNote (n : musicNote) : M unit :=
  p <- this ;;
  if _notePlayed p then ret tt
  else if negb (_started p) then
    ok <- ledcWriteNote (_channel p) (note n) (octave n) ;;
    (if ok then ledcWrite (_channel p) (_volume p)
     else ledcWrite (_channel p) 0) ;;
    now <- millis ;;
    update (with_msStart now) ;;
    update (with_started true)
  else
    now <- millis ;;
    target <- durationMs (value n) (_tempo p) ;;
    if U32.sub now (_msStart p) >? target then
      ledcWrite (_channel p) 0 ;;
      update (with_started false) ;;
      update (with_notePlayed true) ;;
      delay (_msNoteGap p)
    else ret tt.

Definition playMelody (m : list musicNote) (len : Z) (repeat : bool) : M unit :=
  update (with_notePlayed false) ;;
  p <- this ;;
  if _noteCounter p >=? len then
    (if repeat then update (with_noteCounter 0) else ret tt)
  else
    (if negb (_random p) then
       n <- index m (_noteCounter p) ;; playNote n
     else
       r <- random len ;; n <- index m r ;; playNote n) ;;
    q <- this ;;
    if _notePlayed q then update (with_noteCounter (_noteCounter q + 1))
    else ret tt.

Definition playMelody_set (repeat : bool) : M unit :=
  p <- this ;;
  match _melody p with
  | None => ret tt
  | Some m => playMelody m (_melodyLength p) repeat
  end.

Definition playBeats : M unit :=
  p <- this ;;
  (if negb (_started p) then
     ledcWriteNote 0 NOTE_A 7 ;;
     ledcWrite (_channel p) (_volume p) ;;
     update (with_started true) ;;
     now <- millis ;;
     update (with_msStart now)
   else ret tt) ;;
  now1 <- millis ;;
  p1 <- this ;;
  (if U32.sub now1 (_msStart p1) >? 4 then mute else ret tt) ;;
  now2 <- millis ;;
  p2 <- this ;;
  period <- udiv 60000 (U32.wrap (_tempo p2)) ;;
  if U32.sub now2 (_msStart p2) >? period then update (with_started false)
  else ret tt.

Definition rearmNoteAfter (msWait : Z) : M unit :=
  now <- millis ;;
  p <- this ;;
  if U32.sub now (_msPrevious p) >=? msWait then
    now' <- millis ;;
    update (with_msPrevious now') ;;
    update (with_notePlayed false)
  else ret tt.

(** One call of a member function from the main loop: the object before,
    the object after and the commands sent during the call. *)
Definition call (c : M unit) (e : Env) (p : MelodyPlayer)
    : Result (MelodyPlayer * list Event) :=
  match c e (mkMachine p 0 []) with
  | Done (_, s) => Done (self s, sent s)
  | Trap f => Trap f
  end.

(** * Vocabulary of the statements *)

(** ** One call *)

(** The value of [durationMs] when the division is defined. *)
Definition target (v : N_LEN) (tempo : Z) : Z :=
  U32.mul 60000 (U32.wrap (N_LEN_value v)) / N4_LEN / U32.wrap tempo.

(** The elapsed time computed from the [k]-th reading of the clock in a
    call and a stored start time: [millis() - start] in [uint32_t]. *)
Definition elapsed_at (e : Env) (k : nat) (start : Z) : Z :=
  U32.sub (U32.wrap (millis_at e k)) start.

(** The index of the note that a call of [playMelody] hands to [playNote]. *)
Definition chosen (e : Env) (len : Z) (p : MelodyPlayer) : Z :=
  if _random p then random_lt e len else _noteCounter p.

(** What [playMelody] does with the object after [playNote] returned. *)
Definition advance (q : MelodyPlayer) : MelodyPlayer :=
  if _notePlayed q then with_noteCounter (_noteCounter q + 1) q else q.

(** The conditions under which a call of [playMelody] stays inside the
    melody array: the length passed is the length of the array, the note
    counter is not negative and [random(len)] answers below [len]. *)
Definition in_melody (e : Env) (m : list musicNote) (len : Z)
    (p : MelodyPlayer) : Prop :=
  len = Z.of_nat (length m) /\ 0 <= _noteCounter p /\
  (0 < len -> 0 <= random_lt e len < len).

(** In [playBeats]: the object when the two comparisons are made, the
    index of the clock reading used by the first of them, the commands of
    the trigger, and the beat period. *)
Definition armed (e : Env) (p : MelodyPlayer) : MelodyPlayer :=
  if _started p then p
  else with_msStart (U32.wrap (millis_at e 0)) (with_started true p).

Definition first_check (p : MelodyPlayer) : nat :=
  if _started p then 0%nat else 1%nat.

Definition trigger (p : MelodyPlayer) : list Event :=
  if _started p then []
  else [LedcWriteNote 0 NOTE_A 7; LedcWrite (_channel p) (_volume p)].

Definition period (p : MelodyPlayer) : Z := 60000 / U32.wrap (_tempo p).

(** The commands to the ledc peripheral among the events of a call. *)
Definition is_command (ev : Event) : bool :=
  match ev with
  | LedcWriteNote _ _ _ | LedcWrite _ _ => true
  | _ => false
  end.

Definition commands (evs : list Event) : nat := length (filter is_command evs).

Definition is_silence (ev : Event) : bool :=
  match ev with
  | LedcWrite _ 0 => true
  | _ => false
  end.

(** Every duty cycle written is 0. *)
Definition silent (evs : list Event) : Prop :=
  forall ch d, In (LedcWrite ch d) evs -> d = 0.

(** ** The main loop *)

(** The result of one call: the object and the events of the call. *)
Definition Outcome : Type := Result (MelodyPlayer * list Event).

(** [loop body k p]: [k] passes of a loop whose [j]-th pass calls
    [body j] on the object, starting from [p]; the events of the passes are
    collected in order. *)
Fixpoint loop (body : nat -> MelodyPlayer -> Outcome) (k : nat)
    (p : MelodyPlayer) : Outcome :=
  match k with
  | O => Done (p, [])
  | S j =>
      match loop body j p with
      | Done (q, evs) =>
          match body j q with
          | Done (q', evs') => Done (q', evs ++ evs')
          | Trap f => Trap f
          end
      | Trap f => Trap f
      end
  end.

(** A loop that plays one note, the user setting the volume to [vols j]
    before the [j]-th call of [playNote]. *)
Definition note_pass (envs : nat -> Env) (vols : nat -> Z) (n : musicNote)
    (j : nat) : MelodyPlayer -> Outcome :=
  call (setVolume (vols j) ;; playNote n) (envs j).

(** The first clock reading of the [j]-th pass. *)
Definition pass_time (envs : nat -> Env) (j : nat) : Z := millis_at (envs j) 0.

(** The loop of the example program while a melody plays, without
    repeat, and the note counter after [j] passes. *)
Definition melody_pass (envs : nat -> Env) (m : list musicNote) (len : Z)
    (j : nat) : MelodyPlayer -> Outcome :=
  call (playMelody m len false) (envs j).

Definition cursor_at (envs : nat -> Env) (m : list musicNote) (len : Z)
    (p0 : MelodyPlayer) (j : nat) : Z :=
  match loop (melody_pass envs m len) j p0 with
  | Done (q, _) => _noteCounter q
  | Trap _ => -1
  end.

(** The playback state of the object: its members but [_notePlayed], the
    flag in which [playNote] reports to [playMelody] that the note is
    complete.  [playMelody] clears the flag before it reads it, and
    [playBeats] does not read it. *)
Definition same_playback_state (p q : MelodyPlayer) : Prop :=
  _pin q = _pin p /\ _channel q = _channel p /\ _volume q = _volume p /\
  _msStart q = _msStart p /\ _msNoteGap q = _msNoteGap p /\
  _msPrevious q = _msPrevious p /\ _noteCounter q = _noteCounter p /\
  _started q = _started p /\ _random q = _random p /\
  _melodyLength q = _melodyLength p /\ _tempo q = _tempo p /\
  _melody q = _melody p.

(** Two calls that send the same events and end in the same playback
    state, or fail in the same way. *)
Definition same_outcome (a b : Outcome) : Prop :=
  match a, b with
  | Done (p, evs), Done (q, evs') => same_playback_state p q /\ evs = evs'
  | Trap f, Trap f' => f = f'
  | _, _ => False
  end.

(** What the passes of that loop preserve. *)
Definition steady (len : Z) (p0 q : MelodyPlayer) : Prop :=
  _tempo q = _tempo p0 /\ 0 <= _noteCounter q <= len.

(** The loop of the example program while the metronome beats, the
    started flag found by the [j]-th pass, and what that pass sends. *)
Definition beat_pass (envs : nat -> Env) (j : nat) : MelodyPlayer -> Outcome :=
  call playBeats (envs j).

Definition started_before (envs : nat -> Env) (p0 : MelodyPlayer) (j : nat)
    : bool :=
  match loop (beat_pass envs) j p0 with
  | Done (q, _) => _started q
  | Trap _ => false
  end.

Definition sent_in (envs : nat -> Env) (p0 : MelodyPlayer) (j : nat)
    : list Event :=
  match loop (beat_pass envs) j p0 with
  | Done (q, _) =>
      match beat_pass envs j q with
      | Done (_, evs) => evs
      | Trap _ => []
      end
  | Trap _ => []
  end.

(** What the passes of that loop preserve. *)
Definition same (p0 q : MelodyPlayer) : Prop :=
  _tempo q = _tempo p0 /\ _channel q = _channel p0 /\ _volume q = _volume p0.

(** The passes after [j0] up to [j0 + d] all come within the beat period
    of pass [j0]. *)
Definition within (envs : nat -> Env) (p0 : MelodyPlayer) (j0 d : nat) : Prop :=
  forall i, (j0 < i <= j0 + d)%nat ->
            pass_time envs i - pass_time envs j0 <= 60000 / _tempo p0.

(** ** Fixtures for the examples *)

(** The ledc driver answers 0 for a note that is not a pitch and for an
    octave above 8. *)
Definition is_pitch (n : note_t) : bool :=
  match n with NOTE_MAX => false | _ => true end.

(** A board on which every reading of the clock during the call gives
    [t], [random()] gives [r] and the ledc driver is the one above. *)
Definition board (t r : Z) : Env :=
  mkEnv (fun _ => t) (fun _ => r) (fun _ n o => is_pitch n && (o <=? 8)).

(** The player of the example program, on pin 25 and channel 0. *)
Definition fresh_player : MelodyPlayer := fst (MelodyPlayer_new 25 0 0).

Definition a4 : musicNote := mkNote NOTE_A 4 N4.

(** A player in the middle of a quarter note that started at time 0. *)
Definition sounding_player : MelodyPlayer :=
  with_started true (with_volume 2 fresh_player).

(** The metronome of the example program at volume 100 and the default
    tempo 114 (period 526 ms). *)
Definition metronome_player : MelodyPlayer := with_volume 100 fresh_player.

(** Loops polled every 600 ms, every 10 ms, every millisecond, and at
    0, 6, 16, 26, ... ms. *)
Definition slow_loop (j : nat) : Env := board (600 * Z.of_nat j) 0.

Definition steady_loop (j : nat) : Env := board (10 * Z.of_nat j) 0.

Definition quick_loop (j : nat) : Env := board (Z.of_nat j) 0.

Definition late_loop (j : nat) : Env := board (Z.max 0 (10 * Z.of_nat j - 4)) 0.

(** ** Vocabulary of the further properties *)

(** The loop of the example program while a melody plays, the repeat
    flag of the [j]-th call being [reps j]: with the melody passed to
    [playMelody], and with the melody set by [setMelody]. *)
Definition tune_pass (envs : nat -> Env) (m : list musicNote) (len : Z)
    (reps : nat -> bool) (j : nat) : MelodyPlayer -> Outcome :=
  call (playMelody m len (reps j)) (envs j).

Definition set_tune_pass (envs : nat -> Env) (reps : nat -> bool) (j : nat)
    : MelodyPlayer -> Outcome :=
  call (playMelody_set (reps j)) (envs j).

(** The events of a player whose notes start and stop in turn:
    [sequenced ch gap a evs b] holds when [evs] is a chain of note starts
    (frequency, then duty cycle, on channel [ch]) and note stops (duty
    cycle 0 on [ch], then the pause [gap]) that alternate, beginning with
    a stop exactly when [a] is true and ending after a start exactly
    when [b] is true. *)
Inductive sequenced (ch gap : Z) : bool -> list Event -> bool -> Prop :=
| sequenced_nil (a : bool) : sequenced ch gap a [] a
| sequenced_start (n : note_t) (o d : Z) (evs : list Event) (b : bool) :
    sequenced ch gap true evs b ->
    sequenced ch gap false (LedcWriteNote ch n o :: LedcWrite ch d :: evs) b
| sequenced_stop (evs : list Event) (b : bool) :
    sequenced ch gap false evs b ->
    sequenced ch gap true (LedcWrite ch 0 :: Delay gap :: evs) b.

(** What the passes of the melody loop preserve. *)
Definition settled (len : Z) (p0 q : MelodyPlayer) : Prop :=
  _tempo q = _tempo p0 /\ _channel q = _channel p0 /\
  _msNoteGap q = _msNoteGap p0 /\ _random q = _random p0 /\
  0 <= _noteCounter q <= Z.max len (_noteCounter p0).

(** What the [j]-th pass of the melody loop sends. *)
Definition tune_sent (envs : nat -> Env) (m : list musicNote) (len : Z)
    (reps : nat -> bool) (p0 : MelodyPlayer) (j : nat) : list Event :=
  match loop (tune_pass envs m len reps) j p0 with
  | Done (q, _) =>
      match tune_pass envs m len reps j q with
      | Done (_, evs) => evs
      | Trap _ => []
      end
  | Trap _ => []
  end.

(** * The example program, [src/melodyPlayer.cpp] *)

(** The arguments of a [printf]. *)
Inductive PrintfArg : Set :=
| ArgInt (z : Z)
| ArgChar (c : ascii)
| ArgStr (s : string).

(** A text handed to [Serial.print]: a string, or what [snprintf] made of
    a format and its arguments. *)
Inductive Text : Set :=
| Plain (s : string)
| Formatted (format : string) (args : list PrintfArg).

(** What the program does to the outside: the events of the player, and
    the calls of [Serial]. *)
Inductive Output : Set :=
| OnBoard (ev : Event)
| SerialBegin (baud : Z)
| SerialPrintf (format : string) (args : list PrintfArg)
| SerialPrint (t : Text)
| SerialPrintln (s : string).

(** What one pass of [loop()] finds: the answers of the board to the
    player, the character that [Serial.read()] returns when
    [Serial.available()] is not 0 at the top of the pass ([None] when it is
    0), and the values that [Serial.parseInt()] returns, in order, as long
    as [Serial.available()] is not 0 during the pass. *)
Record Pass : Type := mkPass {
  answers : Env;
  typed : option ascii;
  numbers : list Z
}.

(** The global variables that change, and [volume], which does not. *)
Record Program : Type := mkProgram {
  player : MelodyPlayer;
  beatTheBeat : bool;
  volume : Z
}.

Definition Step : Type := Program -> Result (Program * list Output).

Definition skip : Step := fun g => Done (g, []).

Definition and_then (a b : Step) : Step :=
  fun g => match a g with
           | Done (g1, out1) =>
               match b g1 with
               | Done (g2, out2) => Done (g2, out1 ++ out2)
               | Trap f => Trap f
               end
           | Trap f => Trap f
           end.

Notation "a >> b" := (and_then a b)
  (at level 62, right associativity) : player_scope.

Definition say (o : Output) : Step := fun g => Done (g, [o]).

Definition set_beatTheBeat (b : bool) : Step :=
  fun g => Done (mkProgram (player g) b (volume g), []).

(** A member function called on the global [player]. *)
Definition on_player (c : M unit) (e : Env) : Step :=
  fun g => match call c e (player g) with
           | Done (q, evs) =>
               Done (mkProgram q (beatTheBeat g) (volume g), map OnBoard evs)
           | Trap f => Trap f
           end.

Definition channel : Z := 0.

(** [GPIO_NUM_25] *)
Definition PIN_SPKR : Z := 25.

(** The tags of the menu actions, which the source stores in the menu as
    references to functions. *)
Inductive Action : Set :=
| DoPlayMelody | DoPlayBeats | DoSetTempo | DoSetTempo1 | DoSetLegato
| DoSetVolume | DoSetNormal | DoSetRandom | DoShowMenu.

Record MenuItem : Set := mkItem {
  key : ascii;
  txt : string;
  action : Action
}.

Definition menu : list MenuItem :=
  [mkItem "a" "[a] Play Am Louenesee" DoPlayMelody;
   mkItem "c" "[c] Play Chum Bueb" DoPlayMelody;
   mkItem "e" "[e] Play Entertainer" DoPlayMelody;
   mkItem "o" "[o] Play Old Mac Donald" DoPlayMelody;
   mkItem "m" "[m] Play Martinshorn" DoPlayMelody;
   mkItem "p" "[p] Play Postauto" DoPlayMelody;
   mkItem "C" "[C] Play Chromatic Scale" DoPlayMelody;
   mkItem "P" "[P] Play Pentatonic Scale" DoPlayMelody;
   mkItem "B" "[B] Beat the beat" DoPlayBeats;
   mkItem "t" "[t] Set Tempo [1..8]" DoSetTempo;
   mkItem "b" "[b] Set Tempo [beats per minute]" DoSetTempo1;
   mkItem "l" "[l] Set Legato (gap between notes)[0..100ms]" DoSetLegato;
   mkItem "v" "[v] Set Volume [0..511]" DoSetVolume;
   mkItem "n" "[n] Set normal mode" DoSetNormal;
   mkItem "r" "[r] Set random mode" DoSetRandom;
   mkItem "S" "[S] Show Menu" DoShowMenu].

Definition nbrMenuItems : Z := Z.of_nat (length menu).

Definition oldMacDonald : list musicNote :=
  [mkNote NOTE_G 4 N4; mkNote NOTE_G 4 N4; mkNote NOTE_G 4 N4;
   mkNote NOTE_D 4 N4; mkNote NOTE_E 4 N4; mkNote NOTE_E 4 N4;
   mkNote NOTE_D 4 N2; mkNote NOTE_B 4 N4; mkNote NOTE_B 4 N4;
   mkNote NOTE_A 4 N4; mkNote NOTE_A 4 N4; mkNote NOTE_G 4 N2d;
   mkNote NOTE_D 4 N4; mkNote NOTE_G 4 N4; mkNote NOTE_G 4 N4;
   mkNote NOTE_G 4 N4; mkNote NOTE_D 4 N4; mkNote NOTE_E 4 N4;
   mkNote NOTE_E 4 N4; mkNote NOTE_D 4 N2; mkNote NOTE_B 4 N4;
   mkNote NOTE_B 4 N4; mkNote NOTE_A 4 N4; mkNote NOTE_A 4 N4;
   mkNote NOTE_G 4 N2d; mkNote NOTE_D 4 N8; mkNote NOTE_D 4 N8;
   mkNote NOTE_G 4 N4; mkNote NOTE_G 4 N4; mkNote NOTE_G 4 N4;
   mkNote REST 4 N4; mkNote NOTE_G 3 N4; mkNote NOTE_G 3 N4;
   mkNote NOTE_G 3 N4; mkNote REST 4 N4; mkNote NOTE_G 4 N8;
   mkNote NOTE_G 4 N8; mkNote NOTE_G 4 N4; mkNote NOTE_G 3 N8;
   mkNote NOTE_G 3 N8; mkNote NOTE_G 3 N4; mkNote NOTE_G 4 N8;
   mkNote NOTE_G 4 N8; mkNote NOTE_G 4 N8; mkNote NOTE_G 4 N8;
   mkNote NOTE_G 4 N4; mkNote NOTE_G 4 N4; mkNote NOTE_G 4 N4;
   mkNote NOTE_G 4 N4; mkNote NOTE_G 4 N4; mkNote NOTE_D 4 N4;
   mkNote NOTE_E 4 N4; mkNote NOTE_E 4 N4; mkNote NOTE_D 4 N2;
   mkNote NOTE_B 4 N4; mkNote NOTE_B 4 N4; mkNote NOTE_A 4 N4;
   mkNote NOTE_A 4 N4; mkNote NOTE_G 4 N1; mkNote REST 4 N2].

Definition chomBueb : list musicNote :=
  [mkNote NOTE_E 4 N2; mkNote NOTE_E 5 N2d; mkNote NOTE_Cs 5 N4;
   mkNote NOTE_A 4 N4; mkNote NOTE_Fs 4 N4; mkNote NOTE_E 4 N4d;
   mkNote NOTE_Fs 4 N8; mkNote NOTE_E 4 N2; mkNote REST 4 N1d].

Definition amLouenesee : list musicNote :=
  [mkNote NOTE_Gs 4 N16; mkNote NOTE_Gs 4 N16; mkNote NOTE_B 4 N16;
   mkNote NOTE_B 4 N8d; mkNote NOTE_Gs 4 N16; mkNote NOTE_B 4 N16;
   mkNote NOTE_Gs 4 N16; mkNote NOTE_Cs 5 N8; mkNote NOTE_B 4 N8d;
   mkNote NOTE_Gs 4 N16; mkNote NOTE_Fs 4 N8; mkNote NOTE_E 4 N4;
   mkNote REST 4 N4; mkNote NOTE_Gs 4 N16; mkNote NOTE_B 4 N16;
   mkNote NOTE_B 4 N4; mkNote REST 4 N16; mkNote NOTE_Gs 4 N16;
   mkNote NOTE_Cs 5 N8; mkNote NOTE_B 4 N8; mkNote NOTE_Gs 4 N8;
   mkNote NOTE_Fs 4 N4d; mkNote REST 4 N8; mkNote REST 4 N16;
   mkNote NOTE_Fs 4 N16; mkNote NOTE_Fs 4 N16; mkNote NOTE_Fs 4 N16;
   mkNote NOTE_Fs 4 N8d; mkNote NOTE_E 4 N16; mkNote NOTE_Fs 4 N16;
   mkNote NOTE_E 4 N16; mkNote NOTE_Gs 4 N8; mkNote NOTE_Fs 4 N8d;
   mkNote NOTE_E 4 N16; mkNote NOTE_Cs 4 N8; mkNote NOTE_E 4 N4;
   mkNote REST 4 N4; mkNote NOTE_E 4 N8; mkNote NOTE_Cs 4 N8;
   mkNote NOTE_E 4 N8; mkNote NOTE_Fs 4 N8; mkNote NOTE_Gs 4 N8;
   mkNote NOTE_E 4 N8; mkNote NOTE_Fs 4 N8; mkNote NOTE_E 4 N4d;
   mkNote REST 4 N4; mkNote NOTE_Gs 4 N16; mkNote NOTE_B 4 N16;
   mkNote NOTE_B 4 N4; mkNote NOTE_B 4 N16; mkNote NOTE_Gs 4 N16;
   mkNote NOTE_Cs 5 N8; mkNote NOTE_B 4 N8d; mkNote NOTE_Gs 4 N16;
   mkNote NOTE_Fs 4 N8; mkNote NOTE_E 4 N4; mkNote REST 4 N4;
   mkNote NOTE_Gs 4 N16; mkNote NOTE_B 4 N16; mkNote NOTE_B 4 N4;
   mkNote REST 4 N16; mkNote NOTE_Gs 4 N16; mkNote NOTE_Cs 5 N8;
   mkNote NOTE_B 4 N8; mkNote NOTE_Gs 4 N8; mkNote NOTE_Fs 4 N4d;
   mkNote REST 4 N8; mkNote REST 4 N16; mkNote NOTE_Fs 4 N16;
   mkNote NOTE_Fs 4 N16; mkNote NOTE_Fs 4 N4; mkNote NOTE_Fs 4 N16;
   mkNote NOTE_E 4 N16; mkNote NOTE_Gs 4 N8; mkNote NOTE_Fs 4 N8d;
   mkNote NOTE_E 4 N16; mkNote NOTE_Cs 4 N8; mkNote NOTE_E 4 N4;
   mkNote REST 4 N4; mkNote NOTE_E 4 N8; mkNote NOTE_Cs 4 N8;
   mkNote NOTE_E 4 N8; mkNote NOTE_Fs 4 N8; mkNote NOTE_Gs 4 N8;
   mkNote NOTE_E 4 N8; mkNote NOTE_Fs 4 N8; mkNote NOTE_Gs 4 N4d;
   mkNote REST 4 N4d; mkNote NOTE_Cs 5 N8; mkNote NOTE_Cs 5 N8;
   mkNote NOTE_Cs 5 N16; mkNote NOTE_Cs 5 N16; mkNote NOTE_Cs 5 N8;
   mkNote NOTE_B 4 N8; mkNote NOTE_B 4 N8; mkNote NOTE_B 4 N8;
   mkNote NOTE_E 4 N4; mkNote REST 4 N4; mkNote NOTE_E 4 N16;
   mkNote NOTE_E 4 N16; mkNote NOTE_Cs 5 N8; mkNote NOTE_Cs 5 N8d;
   mkNote NOTE_Cs 5 N16; mkNote NOTE_B 4 N8; mkNote NOTE_Gs 4 N8;
   mkNote NOTE_B 4 N8; mkNote NOTE_Cs 5 N4d; mkNote REST 4 N8;
   mkNote REST 4 N8d; mkNote NOTE_E 4 N16; mkNote NOTE_Cs 5 N8;
   mkNote NOTE_Cs 5 N8d; mkNote NOTE_Cs 5 N16; mkNote NOTE_B 4 N8;
   mkNote NOTE_Gs 4 N8; mkNote NOTE_B 4 N8; mkNote NOTE_B 4 N8;
   mkNote NOTE_E 4 N4; mkNote REST 4 N8; mkNote REST 4 N8d;
   mkNote NOTE_E 4 N16; mkNote NOTE_Fs 4 N8; mkNote NOTE_Fs 4 N8;
   mkNote NOTE_Fs 4 N8; mkNote NOTE_Fs 4 N8; mkNote NOTE_Fs 4 N8;
   mkNote NOTE_Gs 4 N8; mkNote NOTE_A 4 N4d; mkNote REST 4 N4d;
   mkNote REST 4 N4d; mkNote REST 4 N4d; mkNote REST 4 N8; mkNote REST 4 N8;
   mkNote NOTE_B 3 N8; mkNote NOTE_B 4 N8; mkNote NOTE_B 4 N8;
   mkNote NOTE_B 4 N8; mkNote NOTE_A 4 N16; mkNote NOTE_Gs 4 N4d;
   mkNote REST 4 N4; mkNote REST 4 N4; mkNote REST 4 N16].

Definition entertainer : list musicNote :=
  [mkNote NOTE_D 4 N8; mkNote NOTE_Eb 4 N8; mkNote NOTE_E 4 N8;
   mkNote NOTE_C 5 N4; mkNote NOTE_E 4 N8; mkNote NOTE_C 5 N4;
   mkNote NOTE_E 4 N8; mkNote NOTE_C 5 N8; mkNote NOTE_C 5 N2;
   mkNote REST 5 N8; mkNote NOTE_C 5 N8; mkNote NOTE_D 5 N8;
   mkNote NOTE_Eb 5 N8; mkNote NOTE_E 5 N8; mkNote NOTE_C 5 N8;
   mkNote NOTE_D 5 N8; mkNote NOTE_E 5 N4; mkNote NOTE_B 4 N8;
   mkNote NOTE_D 5 N4; mkNote NOTE_C 5 N2d; mkNote REST 5 N1d].

Definition martinshorn : list musicNote :=
  [mkNote NOTE_Cs 4 N4; mkNote NOTE_Gs 4 N4].

Definition postauto : list musicNote :=
  [mkNote NOTE_Cs 5 N4; mkNote NOTE_E 4 N4; mkNote NOTE_A 4 N4d;
   mkNote REST 4 N2d].

Definition pentatonicScale : list musicNote :=
  [mkNote NOTE_C 4 N4; mkNote NOTE_D 4 N4; mkNote NOTE_E 4 N4;
   mkNote NOTE_G 4 N4; mkNote NOTE_A 4 N4; mkNote NOTE_B 4 N4].

Definition chromaticScale : list musicNote :=
  [mkNote NOTE_C 4 N4; mkNote NOTE_Cs 4 N4; mkNote NOTE_D 4 N4;
   mkNote NOTE_Eb 4 N4; mkNote NOTE_E 4 N4; mkNote NOTE_F 4 N4;
   mkNote NOTE_Fs 4 N4; mkNote NOTE_G 4 N4; mkNote NOTE_Gs 4 N4;
   mkNote NOTE_A 4 N4; mkNote NOTE_Bb 4 N4; mkNote NOTE_B 4 N4;
   mkNote NOTE_C 5 N4].

Definition len_oldMacDonald : Z := Z.of_nat (length oldMacDonald).

Definition len_chomBueb : Z := Z.of_nat (length chomBueb).

Definition len_amLouenesee : Z := Z.of_nat (length amLouenesee).

Definition len_entertainer : Z := Z.of_nat (length entertainer).

Definition len_postauto : Z := Z.of_nat (length postauto).

Definition len_pentatonic : Z := Z.of_nat (length pentatonicScale).

Definition len_chromatic : Z := Z.of_nat (length chromaticScale).

Definition len_martinshorn : Z := Z.of_nat (length martinshorn).

(** The program before [setup()]: the constructor of the global [player]
    has run on zero-initialised storage. *)
Definition boot : Program * list Output :=
  (mkProgram (fst (MelodyPlayer_new PIN_SPKR channel 0)) false 1,
   map OnBoard (snd (MelodyPlayer_new PIN_SPKR channel 0))).

(** The menu actions.  In the source they bear the names of the member
    functions they call ([playMelody(char)], [setTempo(char)], ...). *)

Definition menu_playMelody (w : Pass) (ch : ascii) : Step :=
  set_beatTheBeat false >>
  on_player (setVolume 2) (answers w) >>
  match ch with
  | "a"%char =>
      on_player (setMelody amLouenesee len_amLouenesee) (answers w) >>
      say (SerialPrintf "Playing 'Am Louenesee' " [])
  | "c"%char =>
      on_player (setMelody chomBueb len_chomBueb) (answers w) >>
      say (SerialPrintf "Playing 'Chom Bueb' " [])
  | "o"%char =>
      on_player (setMelody oldMacDonald len_oldMacDonald) (answers w) >>
      say (SerialPrintf "Playing 'Old Mac Donald' " [])
  | "e"%char =>
      on_player (setMelody entertainer len_entertainer) (answers w) >>
      say (SerialPrintf "Playing 'Entertainer' " [])
  | "m"%char =>
      on_player (setMelody martinshorn len_martinshorn) (answers w) >>
      say (SerialPrintf "Playing 'Martinshorn cis-gis' " [])
  | "p"%char =>
      on_player (setMelody postauto len_postauto) (answers w) >>
      say (SerialPrintf "Playing 'Postauto cis-e-a' " [])
  | "C"%char =>
      on_player (setMelody chromaticScale len_chromatic) (answers w) >>
      say (SerialPrintf "Playing 'Chromatic Scale' " [])
  | "P"%char =>
      on_player (setMelody pentatonicScale len_pentatonic) (answers w) >>
      say (SerialPrintf "Playing 'Pentatonic Scale' " [])
  | _ => skip
  end.

Definition menu_playBeats (w : Pass) (ch : ascii) : Step :=
  set_beatTheBeat true >>
  on_player (setVolume 100) (answers w) >>
  say (SerialPrintf "%s" [ArgStr "Playing beats "]).

(** [int32_t value = 0; delay(2000);
     while (Serial.available()) value = Serial.parseInt();] *)
Definition read_value (w : Pass) : Z := last (numbers w) 0.

(** The named tempi, in the order of the enumeration [TEMPO]. *)
Definition tempi : list TEMPO :=
  [LARGO; LARGHETTO; ADAGIO; ANDANTE; MODERATO; ALLEGRO; PRESTO; PRESTISSIMO].

Definition menu_setTempo (w : Pass) (ch : ascii) : Step :=
  say (OnBoard (Delay 2000)) >>
  match read_value w with
  | 1 => on_player (setTempo_preset LARGO) (answers w) >>
         say (SerialPrintf "Tempo set to 'LARGO' %d "
                [ArgInt (TEMPO_value LARGO)])
  | 2 => on_player (setTempo_preset LARGHETTO) (answers w) >>
         say (SerialPrintf "Tempo set to 'LARGHETTO' %d "
                [ArgInt (TEMPO_value LARGHETTO)])
  | 3 => on_player (setTempo_preset ADAGIO) (answers w) >>
         say (SerialPrintf "Tempo set to 'ADAGIO' %d "
                [ArgInt (TEMPO_value ADAGIO)])
  | 4 => on_player (setTempo_preset ANDANTE) (answers w) >>
         say (SerialPrintf "Tempo set to 'ANDANTE' %d"
                [ArgInt (TEMPO_value ANDANTE)])
  | 5 => on_player (setTempo_preset MODERATO) (answers w) >>
         say (SerialPrintf "Tempo set to 'MODERATO' %d "
                [ArgInt (TEMPO_value MODERATO)])
  | 6 => on_player (setTempo_preset ALLEGRO) (answers w) >>
         say (SerialPrintf "Tempo set to 'ALLEGRO' %d "
                [ArgInt (TEMPO_value ALLEGRO)])
  | 7 => on_player (setTempo_preset PRESTO) (answers w) >>
         say (SerialPrintf "Tempo set to 'PRESTO' %d "
                [ArgInt (TEMPO_value PRESTO)])
  | 8 => on_player (setTempo_preset PRESTISSIMO) (answers w) >>
         say (SerialPrintf "Tempo set to 'PRESTISSIMO' %d "
                [ArgInt (TEMPO_value PRESTISSIMO)])
  | _ => on_player (setTempo 60) (answers w) >>
         say (SerialPrintf "Tempo set to 'Default %d' " [ArgInt 60])
  end.

Definition menu_setTempo1 (w : Pass) (ch : ascii) : Step :=
  say (OnBoard (Delay 2000)) >>
  on_player (setTempo (read_value w)) (answers w) >>
  say (SerialPrintf "Tempo set to %d beats per minute "
         [ArgInt (read_value w)]).

(** [setLegato] and [setVolume] take a [uint32_t]: the [int32_t] read is
    converted. *)
Definition menu_setLegato (w : Pass) (ch : ascii) : Step :=
  say (OnBoard (Delay 2000)) >>
  on_player (setLegato (U32.wrap (read_value w))) (answers w) >>
  say (SerialPrintf "Legato set to %d ms " [ArgInt (read_value w)]).

Definition menu_setVolume (w : Pass) (ch : ascii) : Step :=
  say (OnBoard (Delay 2000)) >>
  on_player (setVolume (U32.wrap (read_value w))) (answers w) >>
  say (SerialPrint (Formatted "Volume set to %d " [ArgInt (read_value w)])).

Definition menu_setNormal (w : Pass) (ch : ascii) : Step :=
  on_player setNormalMode (answers w) >>
  say (SerialPrintf "%s" [ArgStr "Normal mode set "]).

Definition menu_setRandom (w : Pass) (ch : ascii) : Step :=
  on_player setRandomMode (answers w) >>
  say (SerialPrintf "%s" [ArgStr "Random mode set "]).

Definition newline : string :=
  String (ascii_of_nat 10) EmptyString.

Definition carriage_return : string :=
  String (ascii_of_nat 13) EmptyString.

(** The raw string of [showMenu]. *)
Definition title : string :=
  String.concat newline
    [EmptyString; "-------------------"%string;
     "ESP32 Melody Player"%string; "-------------------"%string;
     EmptyString].

Definition showMenu (ch : ascii) : Step :=
  say (SerialPrint (Plain title)) >>
  fold_right (fun item rest => say (SerialPrintln (txt item)) >> rest)
             skip menu >>
  say (SerialPrint (Plain (String.append newline "Press a key: "%string))).

Definition run_action (a : Action) (w : Pass) (ch : ascii) : Step :=
  match a with
  | DoPlayMelody => menu_playMelody w ch
  | DoPlayBeats => menu_playBeats w ch
  | DoSetTempo => menu_setTempo w ch
  | DoSetTempo1 => menu_setTempo1 w ch
  | DoSetLegato => menu_setLegato w ch
  | DoSetVolume => menu_setVolume w ch
  | DoSetNormal => menu_setNormal w ch
  | DoSetRandom => menu_setRandom w ch
  | DoShowMenu => showMenu ch
  end.

(** The loop of [doMenu] over the items from index [i] on: the action of
    the first item with the key, then [break]. *)
Fixpoint dispatch (items : list MenuItem) (w : Pass) (k : ascii) : Step :=
  match items with
  | [] => skip
  | item :: rest =>
      if Ascii.eqb k (key item) then run_action (action item) w k
      else dispatch rest w k
  end.

(** [CLR_LINE] is the format and the two arguments ["\r%*c\r", 128, ' ']. *)
Definition doMenu (w : Pass) (k : ascii) : Step :=
  say (SerialPrintf
         (String.append carriage_return (String.append "%*c"%string carriage_return))
         [ArgInt 128; ArgChar " "%char]) >>
  dispatch menu w k.

Definition setup : Step :=
  say (SerialBegin 115200) >> showMenu "S"%char.

(** [loop()] of the source. *)
Definition main_loop (w : Pass) : Step :=
  (match typed w with
   | Some k => doMenu w k
   | None => skip
   end) >>
  fun g => if beatTheBeat g then on_player playBeats (answers w) g
           else on_player (playMelody_set true) (answers w) g.

(** [k] passes of [loop()], the [j]-th finding [ws j]. *)
Fixpoint run (ws : nat -> Pass) (k : nat) (g : Program)
    : Result (Program * list Output) :=
  match k with
  | O => Done (g, [])
  | S j =>
      match run ws j g with
      | Done (g1, out1) =>
          match main_loop (ws j) g1 with
          | Done (g2, out2) => Done (g2, out1 ++ out2)
          | Trap f => Trap f
          end
      | Trap f => Trap f
      end
  end.

(** ** Vocabulary of the properties of the program *)

(** The condition under which the player of the program stays inside its
    melody: the note counter is not negative and the length set is the
    length of the array set. *)
Definition well_set (p : MelodyPlayer) : Prop :=
  0 <= _noteCounter p /\
  match _melody p with
  | Some m => _melodyLength p = Z.of_nat (length m)
  | None => True
  end.

(** [random()] answers below its argument. *)
Definition fair_random (e : Env) : Prop :=
  forall len, 0 < len -> 0 <= random_lt e len < len.

(** A pass of the program with the clock at [t] in which [k] is typed,
    followed by the numbers [ns]. *)
Definition keystroke (t : Z) (k : ascii) (ns : list Z) : Pass :=
  mkPass (board t 0) (Some k) ns.

(** A pass in which nothing is typed. *)
Definition quiet (t : Z) : Pass := mkPass (board t 0) None [].

(** A board whose [random(n)] answers [seed mod n]. *)
Definition rolling (t seed : Z) : Env :=
  mkEnv (fun _ => t) (fun n => seed mod n)
        (fun _ n o => is_pitch n && (o <=? 8)).

(** Random mode, then the longest melody, then passes one millisecond
    apart in which nothing is typed. *)
Definition a_session (j : nat) : Pass :=
  match j with
  | O => mkPass (rolling 0 0) (Some "r"%char) []
  | S O => mkPass (rolling 1 0) (Some "a"%char) []
  | _ => mkPass (rolling (Z.of_nat j) (Z.of_nat (7 * j))) None []
  end.

(** * Verification *)

(** ** Arithmetic of the 32-bit counter *)

Lemma modulus_val : U32.modulus = 4294967296.
Proof. reflexivity. Qed.

Lemma wrap_range (z : Z) : 0 <= U32.wrap z < 4294967296.
Proof.
  unfold U32.wrap. rewrite modulus_val. apply Z.mod_pos_bound. lia.
Qed.

Lemma wrap_small (z : Z) : 0 <= z < 4294967296 -> U32.wrap z = z.
Proof.
  intros H. unfold U32.wrap. rewrite modulus_val. apply Z.mod_small. exact H.
Qed.

Lemma wrap_idem (z : Z) : U32.wrap (U32.wrap z) = U32.wrap z.
Proof. apply wrap_small, wrap_range. Qed.

(** Subtraction of two readings of the wrapping counter gives the true
    elapsed time as long as that is below 2^32. *)
Lemma sub_wrap_elapsed (s e : Z) :
  0 <= e < 4294967296 ->
  U32.sub (U32.wrap (s + e)) (U32.wrap s) = e.
Proof.
  intros H. unfold U32.sub, U32.wrap. rewrite modulus_val.
  rewrite <- Zminus_mod.
  replace (s + e - s) with e by lia.
  apply Z.mod_small. exact H.
Qed.

Lemma sub_self (a : Z) : U32.sub a a = 0.
Proof. unfold U32.sub, U32.wrap. rewrite Z.sub_diag. reflexivity. Qed.

(** ** The duration of a note *)

Lemma durationMs_defined (v : N_LEN) (tempo : Z) (e : Env) (s : Machine) :
  U32.wrap tempo <> 0 ->
  durationMs v tempo e s = Done (target v tempo, s).
Proof.
  intros H. unfold durationMs, bind, udiv, U32.div, target.
  change (N4_LEN =? 0) with false. cbv iota.
  unfold ret.
  destruct (Z.eqb_spec (U32.wrap tempo) 0) as [E | _]; [contradiction | ].
  reflexivity.
Qed.

Lemma durationMs_trap (v : N_LEN) (tempo : Z) (e : Env) (s : Machine) :
  U32.wrap tempo = 0 ->
  durationMs v tempo e s = Trap DivideByZero.
Proof.
  intros H. unfold durationMs, bind, udiv, U32.div.
  change (N4_LEN =? 0) with false. cbv iota.
  unfold ret. rewrite H. reflexivity.
Qed.

Lemma scaled_length (v : N_LEN) :
  U32.mul 60000 (U32.wrap (N_LEN_value v)) / N4_LEN = 60000 * N_LEN_value v / 16.
Proof. destruct v; reflexivity. Qed.

Lemma target_bound (v : N_LEN) (tempo : Z) : 0 <= target v tempo <= 360000.
Proof.
  unfold target. rewrite scaled_length.
  pose proof (wrap_range tempo) as Hw.
  assert (Hq : 0 <= 60000 * N_LEN_value v / 16 <= 360000)
    by (destruct v; cbn; lia).
  destruct (Z.eq_dec (U32.wrap tempo) 0) as [E | N].
  - rewrite E, Z.div_0_r. lia.
  - split.
    + apply Z.div_pos; lia.
    + transitivity (60000 * N_LEN_value v / 16); [ | lia].
      apply Z.div_le_upper_bound; [lia | ]. nia.
Qed.

(** Evaluation of a member function on an object whose fields are known. *)
Ltac run_member :=
  cbv [bind ret trap this update emit millis random delay ledcWrite
       ledcWriteNote mute udiv U32.div self reads sent app negb
       with_volume with_msStart with_msNoteGap with_msPrevious
       with_noteCounter with_started with_notePlayed with_random with_tempo
       with_melody
       _pin _channel _volume _msStart _msNoteGap _msPrevious _noteCounter
       _started _notePlayed _random _melodyLength _tempo _melody].

(** ** One call of [playNote] *)

Section PlayNote.

Variables (e : Env) (n : musicNote) (s : Machine).

Lemma playNote_played :
  _notePlayed (self s) = true -> playNote n e s = Done (tt, s).
Proof.
  intros H. unfold playNote, bind, this. rewrite H. reflexivity.
Qed.

Lemma playNote_idle :
  _notePlayed (self s) = false -> _started (self s) = false ->
  playNote n e s =
  Done (tt, mkMachine
              (with_started true
                 (with_msStart (U32.wrap (millis_at e (reads s))) (self s)))
              (S (reads s))
              (sent s ++
               [LedcWriteNote (_channel (self s)) (note n) (octave n);
                LedcWrite (_channel (self s))
                  (if tone_set e (_channel (self s)) (note n) (octave n)
                   then _volume (self s) else 0)])).
Proof.
  intros Hp Hs. unfold playNote, bind, this. rewrite Hp, Hs.
  cbn [negb]. unfold ledcWriteNote, bind, emit, ledcWrite, emit, millis, update.
  cbn [self reads sent].
  destruct (tone_set e (_channel (self s)) (note n) (octave n));
    cbn [self reads sent]; rewrite <- app_assoc; reflexivity.
Qed.

Lemma playNote_sounding :
  _notePlayed (self s) = false -> _started (self s) = true ->
  U32.wrap (_tempo (self s)) <> 0 ->
  playNote n e s =
  Done (tt,
        if U32.sub (U32.wrap (millis_at e (reads s))) (_msStart (self s))
           >? target (value n) (_tempo (self s))
        then mkMachine (with_notePlayed true (with_started false (self s)))
                       (S (reads s))
                       (sent s ++ [LedcWrite (_channel (self s)) 0;
                                   Delay (_msNoteGap (self s))])
        else mkMachine (self s) (S (reads s)) (sent s)).
Proof.
  intros Hp Hs Ht. unfold playNote. unfold bind at 1. unfold this.
  rewrite Hp, Hs. cbn [negb]. unfold bind at 1. unfold millis.
  unfold bind at 1. rewrite (durationMs_defined _ _ _ _ Ht).
  destruct (_ >? _).
  - unfold bind, ledcWrite, delay, emit, update. cbn [self reads sent].
    rewrite <- app_assoc. reflexivity.
  - reflexivity.
Qed.

Lemma playNote_sounding_trap :
  _notePlayed (self s) = false -> _started (self s) = true ->
  U32.wrap (_tempo (self s)) = 0 ->
  playNote n e s = Trap DivideByZero.
Proof.
  intros Hp Hs Ht. unfold playNote. unfold bind at 1. unfold this.
  rewrite Hp, Hs. cbn [negb]. unfold bind at 1. unfold millis.
  unfold bind at 1. rewrite (durationMs_trap _ _ _ _ Ht). reflexivity.
Qed.

End PlayNote.

(** ** One call of [playMelody] *)

Section PlayMelody.

Variables (e : Env) (m : list musicNote) (len : Z) (repeat : bool).
Variable p : MelodyPlayer.

Lemma index_defined (i : Z) (n : musicNote) (s : Machine) :
  0 <= i -> nth_error m (Z.to_nat i) = Some n -> index m i e s = Done (n, s).
Proof.
  intros Hi Hn. unfold index.
  destruct (Z.ltb_spec i 0) as [H | _]; [lia | ].
  rewrite Hn. reflexivity.
Qed.

Lemma call_playMelody_end :
  len <= _noteCounter p ->
  call (playMelody m len repeat) e p =
  Done (if repeat then with_noteCounter 0 (with_notePlayed false p)
        else with_notePlayed false p, []).
Proof.
  intros H. unfold call, playMelody, bind, update, this. cbn [self reads sent].
  change (_noteCounter (with_notePlayed false p)) with (_noteCounter p).
  destruct (Z.geb_spec (_noteCounter p) len) as [_ | H']; [ | lia].
  destruct repeat; reflexivity.
Qed.

(** Below the end of the melody the call is [playNote] on the chosen
    note, run on the object with the played flag cleared, followed by
    the advance of the note counter. *)
Lemma call_playMelody_note (n : musicNote) :
  _noteCounter p < len ->
  0 <= chosen e len p ->
  nth_error m (Z.to_nat (chosen e len p)) = Some n ->
  call (playMelody m len repeat) e p =
  match call (playNote n) e (with_notePlayed false p) with
  | Done (q, evs) => Done (advance q, evs)
  | Trap f => Trap f
  end.
Proof.
  intros Hc Hi Hn. unfold call, playMelody.
  unfold bind at 1. unfold update at 1. cbn [self reads sent].
  unfold bind at 1. unfold this at 1. cbn [self reads sent].
  change (_noteCounter (with_notePlayed false p)) with (_noteCounter p).
  change (_random (with_notePlayed false p)) with (_random p).
  destruct (Z.geb_spec (_noteCounter p) len) as [H' | _]; [lia | ].
  set (s0 := mkMachine (with_notePlayed false p) 0 []).
  assert (Hsel :
    (if negb (_random p)
     then n0 <- index m (_noteCounter p);; playNote n0
     else r <- random len;; n0 <- index m r;; playNote n0) e s0
    = playNote n e s0).
  { unfold chosen in Hi, Hn. destruct (_random p); cbn [negb].
    - unfold bind at 1. unfold random at 1. unfold bind at 1.
      rewrite (index_defined _ n s0 Hi Hn). reflexivity.
    - unfold bind at 1. rewrite (index_defined _ n s0 Hi Hn). reflexivity. }
  unfold bind at 1. rewrite Hsel.
  destruct (playNote n e s0) as [[[] s1] | f]; [ | reflexivity].
  unfold bind, this, advance. destruct (_notePlayed (self s1)); reflexivity.
Qed.

End PlayMelody.

(** [call] of [playNote], from the three cases above. *)
Section CallPlayNote.

Variables (e : Env) (n : musicNote) (p : MelodyPlayer).

Lemma call_playNote_played :
  _notePlayed p = true -> call (playNote n) e p = Done (p, []).
Proof.
  intros H. unfold call. rewrite playNote_played by exact H. reflexivity.
Qed.

Lemma call_playNote_idle :
  _notePlayed p = false -> _started p = false ->
  call (playNote n) e p =
  Done (with_started true (with_msStart (U32.wrap (millis_at e 0)) p),
        [LedcWriteNote (_channel p) (note n) (octave n);
         LedcWrite (_channel p)
           (if tone_set e (_channel p) (note n) (octave n)
            then _volume p else 0)]).
Proof.
  intros Hp Hs. unfold call. rewrite playNote_idle by assumption. reflexivity.
Qed.

Lemma call_playNote_sounding :
  _notePlayed p = false -> _started p = true -> U32.wrap (_tempo p) <> 0 ->
  call (playNote n) e p =
  Done (if elapsed_at e 0 (_msStart p) >? target (value n) (_tempo p)
        then (with_notePlayed true (with_started false p),
              [LedcWrite (_channel p) 0; Delay (_msNoteGap p)])
        else (p, [])).
Proof.
  intros Hp Hs Ht. unfold call. rewrite playNote_sounding by assumption.
  unfold elapsed_at. cbn [self reads sent].
  destruct (_ >? _); reflexivity.
Qed.

Lemma call_playNote_sounding_trap :
  _notePlayed p = false -> _started p = true -> U32.wrap (_tempo p) = 0 ->
  call (playNote n) e p = Trap DivideByZero.
Proof.
  intros Hp Hs Ht. unfold call.
  rewrite playNote_sounding_trap by assumption. reflexivity.
Qed.

End CallPlayNote.

(** ** One call of [playBeats] *)

Section PlayBeats.

Variables (e : Env) (p : MelodyPlayer).

Lemma call_playBeats :
  U32.wrap (_tempo p) <> 0 ->
  call playBeats e p =
  Done (if elapsed_at e (S (first_check p)) (_msStart (armed e p)) >? period p
        then with_started false (armed e p) else armed e p,
        trigger p ++
        (if elapsed_at e (first_check p) (_msStart (armed e p)) >? 4
         then [LedcWrite (_channel p) 0] else [])).
Proof.
  unfold call, playBeats, armed, first_check, trigger, period, elapsed_at.
  destruct p as [pin ch vol st gap prev cnt started played rnd len tempo mel].
  cbn [_tempo]. intros Ht.
  destruct started; run_member;
    destruct (_ >? 4); run_member;
    destruct (Z.eqb_spec (U32.wrap tempo) 0) as [E | _]; try contradiction;
    run_member; destruct (_ >? _); reflexivity.
Qed.

Lemma call_playBeats_trap :
  U32.wrap (_tempo p) = 0 -> call playBeats e p = Trap DivideByZero.
Proof.
  unfold call, playBeats.
  destruct p as [pin ch vol st gap prev cnt started played rnd len tempo mel].
  cbn [_tempo]. intros Ht.
  destruct started; run_member;
    destruct (_ >? 4); run_member; rewrite Ht; reflexivity.
Qed.

End PlayBeats.

(** ** The tempo setter *)

Lemma wrap_int_zero (b : Z) :
  -2147483648 <= b <= 2147483647 -> (U32.wrap b = 0 <-> b = 0).
Proof.
  intros Hb. unfold U32.wrap. rewrite modulus_val. split.
  - intros H. pose proof (Z.div_mod b 4294967296 ltac:(lia)) as D. lia.
  - intros ->. reflexivity.
Qed.

Lemma call_setTempo (b : Z) (e : Env) (p : MelodyPlayer) :
  call (setTempo b) e p = Done (with_tempo b p, []).
Proof. reflexivity. Qed.

Lemma call_playNote_total (e : Env) (n : musicNote) (p : MelodyPlayer) :
  U32.wrap (_tempo p) <> 0 -> exists r, call (playNote n) e p = Done r.
Proof.
  intros Ht. destruct (_notePlayed p) eqn:Hp.
  - eexists. apply call_playNote_played. exact Hp.
  - destruct (_started p) eqn:Hs.
    + eexists. apply call_playNote_sounding; assumption.
    + eexists. apply call_playNote_idle; assumption.
Qed.

(** C1, in the form the code satisfies: [setTempo(int)] stores every
    [int] it is given,
    zero and negative values included, and rejects nothing.  With 0 stored,
    every call of [playBeats] and every call of [playNote] on a sounding
    note divides by zero; with any other value, also a negative one (read
    as the unsigned value 2^32 + b), neither of them does. *)
Theorem setTempo_stores_every_int (b : Z) (e : Env) (n : musicNote)
    (p : MelodyPlayer) :
  -2147483648 <= b <= 2147483647 ->
  call (setTempo b) e p = Done (with_tempo b p, []) /\
  (b = 0 ->
   call playBeats e (with_tempo b p) = Trap DivideByZero /\
   (_notePlayed p = false -> _started p = true ->
    call (playNote n) e (with_tempo b p) = Trap DivideByZero)) /\
  (b <> 0 ->
   (exists r, call playBeats e (with_tempo b p) = Done r) /\
   (exists r, call (playNote n) e (with_tempo b p) = Done r)).
Proof.
  intros Hb. pose proof (wrap_int_zero b Hb) as Hz.
  split; [apply call_setTempo | split].
  - intros H0. apply Hz in H0. split.
    + apply call_playBeats_trap. exact H0.
    + intros Hp Hs. apply call_playNote_sounding_trap; assumption.
  - intros Hn. assert (Hw : U32.wrap (_tempo (with_tempo b p)) <> 0)
      by (cbn [_tempo with_tempo]; intros H; apply Hn, Hz, H).
    split.
    + eexists. apply call_playBeats. exact Hw.
    + apply call_playNote_total. exact Hw.
Qed.

Lemma setTempo_stores_every_int_witness :
  call (setTempo (-3)) (board 0 0) fresh_player
  = Done (with_tempo (-3) fresh_player, []) /\
  exists r, call playBeats (board 0 0) (with_tempo (-3) fresh_player) = Done r.
Proof.
  destruct (setTempo_stores_every_int (-3) (board 0 0) a4 fresh_player
              ltac:(lia)) as [H1 [_ H3]].
  split; [exact H1 | ].
  destruct (H3 ltac:(lia)) as [H _]. exact H.
Defined.

(** C1 as specified does not hold: the player is constructed with tempo
    114, [setTempo(0)] replaces it by 0 and the next call of [playBeats]
    divides by zero; [setTempo(-5)] replaces it by -5. *)
Lemma setTempo_nonpositive_not_rejected :
  _tempo fresh_player = 114 /\
  call (setTempo 0) (board 0 0) fresh_player
  = Done (with_tempo 0 fresh_player, []) /\
  _tempo (with_tempo 0 fresh_player) = 0 /\
  call playBeats (board 0 0) (with_tempo 0 fresh_player) = Trap DivideByZero /\
  call (setTempo (-5)) (board 0 0) fresh_player
  = Done (with_tempo (-5) fresh_player, []) /\
  _tempo (with_tempo (-5) fresh_player) = -5.
Proof. repeat split. Qed.

(** ** The duration of a note *)

(** C2: for every note value d and every tempo t > 0 the duration computed
    by [playNote] is 60000 * d / 16 / t, each division truncating, taken
    from left to right; a quarter note at 114 beats per minute lasts 526
    ms. *)
Theorem durationMs_truncating (d : N_LEN) (t : Z) (e : Env) (s : Machine) :
  0 < t <= 2147483647 ->
  durationMs d t e s = Done ((60000 * N_LEN_value d) ÷ 16 ÷ t, s) /\
  durationMs N4 114 e s = Done (526, s).
Proof.
  intros Ht. split.
  - rewrite durationMs_defined
      by (rewrite wrap_small by lia; lia).
    unfold target. rewrite scaled_length, wrap_small by lia.
    assert (H : 0 <= 60000 * N_LEN_value d) by (destruct d; cbn; lia).
    rewrite (Z.quot_div_nonneg (60000 * N_LEN_value d) 16) by lia.
    rewrite Z.quot_div_nonneg; [reflexivity | apply Z.div_pos; lia | lia].
  - reflexivity.
Qed.

Lemma durationMs_truncating_witness :
  durationMs N2d 92 (board 0 0) (mkMachine fresh_player 0 [])
  = Done (1956, mkMachine fresh_player 0 []).
Proof.
  exact (proj1 (durationMs_truncating N2d 92 (board 0 0)
                  (mkMachine fresh_player 0 []) ltac:(lia))).
Defined.

(** ** A call of [playNote] on a sounding note *)

(** C3, in the form the code satisfies: on a call of [playNote] for a
    note that is
    sounding, with elapsed = millis() - _msStart and target the duration
    of the note at the current tempo: if elapsed <= target the call sends
    nothing and changes nothing (the note is not played yet); if
    elapsed > target the call sends exactly one duty-0 write, clears the
    started flag, sets the played flag and then waits for the legato
    gap. *)
Theorem playNote_sounding_poll (e : Env) (n : musicNote) (p : MelodyPlayer) :
  _notePlayed p = false -> _started p = true ->
  0 < _tempo p <= 2147483647 ->
  let elapsed := U32.sub (U32.wrap (millis_at e 0)) (_msStart p) in
  let target := 60000 * N_LEN_value (value n) / 16 / _tempo p in
  (elapsed <= target -> call (playNote n) e p = Done (p, [])) /\
  (elapsed > target ->
   call (playNote n) e p =
   Done (with_notePlayed true (with_started false p),
         [LedcWrite (_channel p) 0; Delay (_msNoteGap p)])).
Proof.
  intros Hp Hs Ht elapsed tgt.
  assert (Hw : U32.wrap (_tempo p) = _tempo p) by (apply wrap_small; lia).
  assert (Htg : target (value n) (_tempo p) = tgt)
    by (unfold target, tgt; rewrite scaled_length, Hw; reflexivity).
  rewrite call_playNote_sounding by (try assumption; lia).
  unfold elapsed_at. fold elapsed. rewrite Htg.
  split; intros H.
  - destruct (Z.gtb_spec elapsed tgt); [lia | reflexivity].
  - destruct (Z.gtb_spec elapsed tgt); [reflexivity | lia].
Qed.

Lemma playNote_sounding_poll_witness :
  call (playNote a4) (board 527 0) sounding_player
  = Done (with_notePlayed true (with_started false sounding_player),
          [LedcWrite 0 0; Delay 10]).
Proof.
  apply (playNote_sounding_poll (board 527 0) a4 sounding_player);
    [reflexivity | reflexivity | cbn; lia | vm_compute; reflexivity].
Defined.

(** C3 as specified does not hold when elapsed = target: a quarter note at
    tempo 114 has target 526 ms, and the call made 526 ms after the start
    sends no silence and leaves the note sounding. *)
Lemma playNote_at_target_not_complete :
  durationMs (value a4) (_tempo sounding_player) (board 526 0)
    (mkMachine sounding_player 1 [])
  = Done (526, mkMachine sounding_player 1 []) /\
  U32.sub (U32.wrap (millis_at (board 526 0) 0)) (_msStart sounding_player)
  = 526 /\
  call (playNote a4) (board 526 0) sounding_player = Done (sounding_player, []) /\
  _started sounding_player = true /\
  _notePlayed sounding_player = false.
Proof. repeat split. Qed.

(** ** Elapsed time across the rollover of the counter *)

(** C8: [playNote] and [playBeats] compute every elapsed time as the
    32-bit unsigned difference millis() - _msStart.  When the start was
    recorded at time [t0] and the clock is read [el] < 2^32 ms later, the
    difference is [el], whether or not the counter wrapped in between: a
    sounding note is ended exactly when [el1] exceeds its duration, and the
    metronome, armed before or triggered in this call, silences exactly
    when [el1] > 4 and rearms exactly when [el2] > 60000 / tempo. *)
Theorem elapsed_across_rollover (e : Env) (n : musicNote) (p : MelodyPlayer)
    (t0 el1 el2 : Z) :
  0 <= el1 < 4294967296 -> 0 <= el2 < 4294967296 ->
  U32.wrap (_tempo p) <> 0 ->
  (_started p = true -> _msStart p = U32.wrap t0 ->
   millis_at e 0 = t0 + el1 -> millis_at e 1 = t0 + el2 ->
   U32.sub (U32.wrap (millis_at e 0)) (_msStart p) = el1 /\
   U32.sub (U32.wrap (millis_at e 1)) (_msStart p) = el2 /\
   (_notePlayed p = false ->
    call (playNote n) e p =
    Done (if el1 >? target (value n) (_tempo p)
          then (with_notePlayed true (with_started false p),
                [LedcWrite (_channel p) 0; Delay (_msNoteGap p)])
          else (p, []))) /\
   call playBeats e p =
   Done (if el2 >? 60000 / U32.wrap (_tempo p) then with_started false p else p,
         if el1 >? 4 then [LedcWrite (_channel p) 0] else [])) /\
  (_started p = false ->
   millis_at e 0 = t0 -> millis_at e 1 = t0 + el1 -> millis_at e 2 = t0 + el2 ->
   call playBeats e p =
   Done (if el2 >? 60000 / U32.wrap (_tempo p)
         then with_started false
                (with_msStart (U32.wrap t0) (with_started true p))
         else with_msStart (U32.wrap t0) (with_started true p),
         [LedcWriteNote 0 NOTE_A 7; LedcWrite (_channel p) (_volume p)]
         ++ (if el1 >? 4 then [LedcWrite (_channel p) 0] else []))).
Proof.
  intros H1 H2 Ht. split.
  - intros Hs Hst Hm0 Hm1.
    assert (E1 : elapsed_at e 0 (_msStart p) = el1)
      by (unfold elapsed_at; rewrite Hst, Hm0; apply sub_wrap_elapsed; exact H1).
    assert (E2 : elapsed_at e 1 (_msStart p) = el2)
      by (unfold elapsed_at; rewrite Hst, Hm1; apply sub_wrap_elapsed; exact H2).
    split; [exact E1 | ]. split; [exact E2 | ]. split.
    + intros Hp. rewrite call_playNote_sounding by assumption.
      rewrite E1. reflexivity.
    + rewrite call_playBeats by assumption.
      unfold armed, first_check, trigger, period. rewrite Hs.
      rewrite E1, E2. reflexivity.
  - intros Hs Hm0 Hm1 Hm2. rewrite call_playBeats by assumption.
    unfold armed, first_check, trigger, period, elapsed_at. rewrite Hs.
    cbn [_msStart with_msStart]. rewrite Hm0, Hm1, Hm2.
    rewrite !sub_wrap_elapsed by assumption. reflexivity.
Qed.

(** A note started 100 ms before the counter wraps and polled 427 ms
    after the wrap has been sounding for 527 ms. *)
Lemma elapsed_across_rollover_witness :
  elapsed_at (board (4294967296 + 427) 0) 0 (4294967296 - 100) = 527 /\
  call (playNote a4) (board (4294967296 + 427) 0)
       (with_msStart (4294967296 - 100) sounding_player)
  = Done (with_notePlayed true
            (with_started false
               (with_msStart (4294967296 - 100) sounding_player)),
          [LedcWrite 0 0; Delay 10]).
Proof.
  destruct (elapsed_across_rollover (board (4294967296 + 427) 0) a4
              (with_msStart (4294967296 - 100) sounding_player)
              (4294967296 - 100) 527 527
              ltac:(lia) ltac:(lia) ltac:(vm_compute; discriminate))
    as [H _].
  destruct (H eq_refl eq_refl eq_refl eq_refl) as [E1 [_ [Hn _]]].
  split; [exact E1 | exact (Hn eq_refl)].
Defined.

(** ** Commands sent during one call *)

Lemma chosen_in_melody (e : Env) (m : list musicNote) (len : Z)
    (p : MelodyPlayer) :
  in_melody e m len p -> _noteCounter p < len ->
  0 <= chosen e len p < len /\
  exists n, nth_error m (Z.to_nat (chosen e len p)) = Some n.
Proof.
  intros [Hlen [Hc Hr]] Hlt.
  assert (Hi : 0 <= chosen e len p < len)
    by (unfold chosen; destruct (_random p); [apply Hr | ]; lia).
  split; [exact Hi | ].
  destruct (nth_error m (Z.to_nat (chosen e len p))) as [n | ] eqn:E.
  - exists n. reflexivity.
  - apply nth_error_None in E. lia.
Qed.

(** The three shapes of a call of [playMelody] that does not trap. *)
Lemma call_playMelody_cases (e : Env) (m : list musicNote) (len : Z)
    (repeat : bool) (p : MelodyPlayer) :
  in_melody e m len p -> U32.wrap (_tempo p) <> 0 ->
  let p0 := with_notePlayed false p in
  (len <= _noteCounter p /\
   call (playMelody m len repeat) e p =
   Done (if repeat then with_noteCounter 0 p0 else p0, []))
  \/
  (exists n, nth_error m (Z.to_nat (chosen e len p)) = Some n /\
     _noteCounter p < len /\ _started p = false /\
     call (playMelody m len repeat) e p =
     Done (with_started true (with_msStart (U32.wrap (millis_at e 0)) p0),
           [LedcWriteNote (_channel p) (note n) (octave n);
            LedcWrite (_channel p)
              (if tone_set e (_channel p) (note n) (octave n)
               then _volume p else 0)]))
  \/
  (exists n, nth_error m (Z.to_nat (chosen e len p)) = Some n /\
     _noteCounter p < len /\ _started p = true /\
     call (playMelody m len repeat) e p =
     Done (if elapsed_at e 0 (_msStart p) >? target (value n) (_tempo p)
           then (with_noteCounter (_noteCounter p + 1)
                   (with_notePlayed true (with_started false p0)),
                 [LedcWrite (_channel p) 0; Delay (_msNoteGap p)])
           else (p0, []))).
Proof.
  intros Hin Ht p0.
  destruct (Z_le_gt_dec len (_noteCounter p)) as [Hend | Hlt].
  - left. split; [exact Hend | ]. apply call_playMelody_end. exact Hend.
  - right. apply Z.gt_lt in Hlt.
    destruct (chosen_in_melody e m len p Hin Hlt) as [Hi [n Hn]].
    pose proof (call_playMelody_note e m len repeat p n Hlt (proj1 Hi) Hn) as Hc.
    destruct (_started p) eqn:Hs.
    + right. exists n. repeat split; try assumption.
      rewrite Hc, call_playNote_sounding by (try assumption; reflexivity).
      fold p0. change (_msStart p0) with (_msStart p).
      change (_tempo p0) with (_tempo p).
      destruct (_ >? _); reflexivity.
    + left. exists n. repeat split; try assumption.
      rewrite Hc, call_playNote_idle by (try assumption; reflexivity).
      reflexivity.
Qed.

(** C9, in the form the code satisfies: a call of [playMelody] sends
    nothing, or the
    pair [ledcWriteNote] then [ledcWrite] that starts a note, or the single
    duty-0 write that ends it, hence at most two commands; a call of
    [playBeats] sends the same pair when it triggers a click, followed by at
    most one duty-0 write, hence at most three. *)
Theorem commands_per_call (e : Env) (m : list musicNote) (len : Z)
    (repeat : bool) (p : MelodyPlayer) :
  in_melody e m len p -> U32.wrap (_tempo p) <> 0 ->
  (exists q evs,
     call (playMelody m len repeat) e p = Done (q, evs) /\
     (commands evs <= 2)%nat /\
     (evs = [] \/
      (exists n d, evs = [LedcWriteNote (_channel p) (note n) (octave n);
                          LedcWrite (_channel p) d]) \/
      evs = [LedcWrite (_channel p) 0; Delay (_msNoteGap p)])) /\
  (exists q evs,
     call playBeats e p = Done (q, evs) /\
     (commands evs <= 3)%nat /\
     exists silence,
       (silence = [] \/ silence = [LedcWrite (_channel p) 0]) /\
       evs = (if _started p then []
              else [LedcWriteNote 0 NOTE_A 7; LedcWrite (_channel p) (_volume p)])
             ++ silence).
Proof.
  intros Hin Ht. split.
  - destruct (call_playMelody_cases e m len repeat p Hin Ht)
      as [[_ H] | [[n [_ [_ [_ H]]]] | [n [_ [_ [_ H]]]]]].
    + eexists _, _. split; [exact H | ]. split; [cbn; lia | left; reflexivity].
    + eexists _, _. split; [exact H | ]. split; [cbn; lia | ].
      right; left. eexists n, _. reflexivity.
    + destruct (_ >? _).
      * eexists _, _. split; [exact H | ]. split; [cbn; lia | ].
        right; right. reflexivity.
      * eexists _, _. split; [exact H | ]. split; [cbn; lia | left; reflexivity].
  - eexists _, _. split; [apply call_playBeats; exact Ht | ].
    unfold trigger. split.
    + destruct (_started p), (_ >? 4); cbn; lia.
    + destruct (_ >? 4); eexists; (split; [ | reflexivity]); auto.
Qed.

Lemma commands_per_call_witness :
  exists q evs,
    call (playMelody [a4] 1 false) (board 0 0) fresh_player = Done (q, evs) /\
    (commands evs <= 2)%nat.
Proof.
  destruct (commands_per_call (board 0 0) [a4] 1 false fresh_player)
    as [[q [evs [H [Hc _]]]] _].
  - repeat split; cbn; lia.
  - vm_compute. discriminate.
  - exists q, evs. split; assumption.
Defined.

(** C9 as specified does not hold: the call that starts a note sends two
    commands, the frequency and then the duty cycle, and so does the call
    of [playBeats] that triggers a click. *)
Lemma start_of_note_sends_two_commands :
  call (playMelody [a4] 1 false) (board 0 0) (with_volume 2 fresh_player)
  = Done (with_started true (with_volume 2 fresh_player),
          [LedcWriteNote 0 NOTE_A 4; LedcWrite 0 2]) /\
  commands [LedcWriteNote 0 NOTE_A 4; LedcWrite 0 2] = 2%nat /\
  call playBeats (board 0 0) (with_volume 100 fresh_player)
  = Done (with_started true (with_volume 100 fresh_player),
          [LedcWriteNote 0 NOTE_A 7; LedcWrite 0 100]).
Proof. repeat split. Qed.

(** ** The channels of the metronome *)

(** C10: the constructor stores the channel c it is given, a [uint8_t],
    so 0 <= c <= 255; in a player whose channel is c, the call of
    [playBeats] that triggers a click sends the frequency to channel 0 and
    the duty cycle to channel c, and every silence goes to channel c, so
    that frequency and duty cycle address one channel only when c = 0. *)
Theorem playBeats_frequency_on_channel_0 (pin c len0 : Z) (e : Env)
    (p : MelodyPlayer) :
  (0 <= c <= 255 -> _channel (fst (MelodyPlayer_new pin c len0)) = c) /\
  (_channel p = c -> _started p = false -> U32.wrap (_tempo p) <> 0 ->
   exists q silence,
     call playBeats e p
     = Done (q, LedcWriteNote 0 NOTE_A 7 :: LedcWrite c (_volume p) :: silence) /\
     (silence = [] \/ silence = [LedcWrite c 0]) /\
     _channel q = c /\
     (forall ch n o,
        In (LedcWriteNote ch n o)
           (LedcWriteNote 0 NOTE_A 7 :: LedcWrite c (_volume p) :: silence) ->
        ch = 0) /\
     (forall ch d,
        In (LedcWrite ch d)
           (LedcWriteNote 0 NOTE_A 7 :: LedcWrite c (_volume p) :: silence) ->
        ch = c)) /\
  (_channel p = c -> _started p = true -> U32.wrap (_tempo p) <> 0 ->
   exists q silence,
     call playBeats e p = Done (q, silence) /\
     (silence = [] \/ silence = [LedcWrite c 0]) /\ _channel q = c).
Proof.
  split; [intros Hr; cbn; unfold U8.wrap; apply Z.mod_small;
          change U8.modulus with 256; lia | split]; intros Hc Hs Ht;
    rewrite call_playBeats by exact Ht;
    unfold trigger, armed; rewrite Hs, Hc.
  - eexists _, _. split; [reflexivity | ].
    assert (Hsil : forall b : bool,
               (if b then [LedcWrite c 0] else []) = [] \/
               (if b then [LedcWrite c 0] else []) = [LedcWrite c 0])
      by (intros []; auto).
    split; [apply Hsil | ]. split.
    + destruct (_ >? period _); cbn; exact Hc.
    + split; intros ch; intros; destruct (_ >? 4);
        cbn in *; intuition (try discriminate; congruence).
  - eexists _, _. split; [reflexivity | ]. split.
    + destruct (_ >? 4); auto.
    + destruct (_ >? period _); cbn; exact Hc.
Qed.

Lemma playBeats_frequency_on_channel_0_witness :
  _channel (fst (MelodyPlayer_new 25 3 0)) = 3 /\
  exists q silence,
    call playBeats (board 0 0) (fst (MelodyPlayer_new 25 3 0))
    = Done (q, LedcWriteNote 0 NOTE_A 7 :: LedcWrite 3 0 :: silence).
Proof.
  destruct (playBeats_frequency_on_channel_0 25 3 0 (board 0 0)
              (fst (MelodyPlayer_new 25 3 0))) as [Hc [H _]].
  split; [apply Hc; lia | ].
  destruct H as [q [silence [H _]]];
    [reflexivity | reflexivity | vm_compute; discriminate | ].
  exists q, silence. exact H.
Defined.

(** ** The note driven by a call of [playMelody] *)

Lemma call_playNote_keeps_counter (e : Env) (n : musicNote)
    (p q : MelodyPlayer) (evs : list Event) :
  call (playNote n) e p = Done (q, evs) -> _noteCounter q = _noteCounter p.
Proof.
  destruct (_notePlayed p) eqn:Hp.
  - rewrite call_playNote_played by exact Hp. intros [= <- _]. reflexivity.
  - destruct (_started p) eqn:Hs.
    + destruct (Z.eq_dec (U32.wrap (_tempo p)) 0) as [Ht | Ht].
      * rewrite call_playNote_sounding_trap by assumption. discriminate.
      * rewrite call_playNote_sounding by assumption.
        destruct (_ >? _); intros [= <- _]; reflexivity.
    + rewrite call_playNote_idle by assumption. intros [= <- _]. reflexivity.
Qed.

(** C5: below the end of a non-empty melody, a call of [playMelody] hands
    to [playNote] the note at index i, where i is the note counter in
    normal mode and the value of [random(len)] in random mode; that value
    is used as it is, so the index is in bounds and as uniform as
    [random()] is, and it does not depend on the note counter.  In both
    modes the note counter is incremented exactly when [playNote] reports
    the note as played in this call. *)
Theorem playMelody_drives_chosen_note (e : Env) (m : list musicNote)
    (len : Z) (repeat : bool) (p : MelodyPlayer) :
  in_melody e m len p -> _noteCounter p < len -> U32.wrap (_tempo p) <> 0 ->
  let i := if _random p then random_lt e len else _noteCounter p in
  0 <= i < len /\
  exists n q evs,
    nth_error m (Z.to_nat i) = Some n /\
    call (playNote n) e (with_notePlayed false p) = Done (q, evs) /\
    call (playMelody m len repeat) e p
    = Done (if _notePlayed q
            then with_noteCounter (_noteCounter p + 1) q else q, evs) /\
    _noteCounter q = _noteCounter p.
Proof.
  intros Hin Hlt Ht i.
  destruct (chosen_in_melody e m len p Hin Hlt) as [Hi [n Hn]].
  fold i in Hi. split; [exact Hi | ].
  destruct (call_playNote_total e n (with_notePlayed false p) Ht) as [[q evs] Hq].
  pose proof (call_playNote_keeps_counter _ _ _ _ _ Hq) as Hk.
  change (_noteCounter (with_notePlayed false p)) with (_noteCounter p) in Hk.
  exists n, q, evs. repeat split; try assumption.
  rewrite (call_playMelody_note e m len repeat p n Hlt (proj1 Hi) Hn), Hq.
  unfold advance. rewrite Hk. reflexivity.
Qed.

(** In random mode with the draw 2 the third note is driven although the
    note counter is 0. *)
Lemma playMelody_drives_chosen_note_witness :
  exists q evs,
    nth_error [a4; mkNote NOTE_C 5 N8; mkNote NOTE_E 5 N2] (Z.to_nat 2)
    = Some (mkNote NOTE_E 5 N2) /\
    call (playMelody [a4; mkNote NOTE_C 5 N8; mkNote NOTE_E 5 N2] 3 true)
         (board 0 2) (with_random true fresh_player)
    = Done (if _notePlayed q then with_noteCounter (0 + 1) q else q, evs).
Proof.
  destruct (playMelody_drives_chosen_note (board 0 2)
              [a4; mkNote NOTE_C 5 N8; mkNote NOTE_E 5 N2] 3 true
              (with_random true fresh_player))
    as [_ [n [q [evs [Hn [_ [H _]]]]]]].
  - repeat split; cbn; lia.
  - cbn. lia.
  - vm_compute. discriminate.
  - exists q, evs. split; [reflexivity | exact H].
Defined.

(** ** Rests *)

Section Rest.

Variables (envs : nat -> Env) (vols : nat -> Z) (n : musicNote).
Variable p : MelodyPlayer.

Hypothesis rest : note n = REST.
Hypothesis rest_is_no_tone : forall j c o, tone_set (envs j) c REST o = false.
Hypothesis tempo_ok : U32.wrap (_tempo p) <> 0.

Lemma silent_app (a b : list Event) : silent a -> silent b -> silent (a ++ b).
Proof.
  intros Ha Hb ch d Hin. apply in_app_or in Hin.
  destruct Hin; [eapply Ha | eapply Hb]; eassumption.
Qed.

Lemma rest_call_silent (j : nat) (q : MelodyPlayer) :
  _tempo q = _tempo p ->
  exists q' evs,
    call (playNote n) (envs j) q = Done (q', evs) /\
    _tempo q' = _tempo p /\ silent evs.
Proof.
  intros Hq. assert (Ht : U32.wrap (_tempo q) <> 0) by (rewrite Hq; exact tempo_ok).
  destruct (_notePlayed q) eqn:Hp.
  - exists q, []. rewrite call_playNote_played by exact Hp.
    repeat split; [exact Hq | intros ? ? []].
  - destruct (_started q) eqn:Hs.
    + rewrite call_playNote_sounding by assumption.
      destruct (_ >? _); eexists _, _; (split; [reflexivity | ]);
        (split; [exact Hq | ]); intros ch d Hin; cbn in Hin.
      * destruct Hin as [[= _ <-] | [[=] | []]]. reflexivity.
      * destruct Hin.
    + rewrite call_playNote_idle by assumption.
      rewrite rest, rest_is_no_tone.
      eexists _, _. split; [reflexivity | ]. split; [exact Hq | ].
      intros ch d Hin; cbn in Hin.
      destruct Hin as [[=] | [[= _ <-] | []]]. reflexivity.
Qed.

Lemma note_pass_volume (j : nat) (q : MelodyPlayer) :
  note_pass envs vols n j q
  = call (playNote n) (envs j) (with_volume (vols j) q).
Proof. reflexivity. Qed.

Lemma rest_loop_silent (k : nat) :
  exists q evs,
    loop (note_pass envs vols n) k p = Done (q, evs) /\
    _tempo q = _tempo p /\ silent evs.
Proof.
  induction k as [ | k [q [evs [Hl [Hq Hs]]]]].
  - exists p, []. repeat split. intros ? ? [].
  - destruct (rest_call_silent k (with_volume (vols k) q) Hq)
      as [q' [evs' [Hc [Hq' Hs']]]].
    exists q', (evs ++ evs'). cbn [loop]. rewrite Hl, note_pass_volume, Hc.
    repeat split; [exact Hq' | apply silent_app; assumption].
Qed.

End Rest.

(** C6: when [ledcWriteNote] answers 0 for a rest, the call of [playNote]
    that starts a rest sends the duty cycle 0 in place of the volume; and
    however often [playNote] is called for that rest, and whatever the
    volume is set to before each of these calls, every duty cycle written
    is 0. *)
Theorem rest_is_never_audible (envs : nat -> Env) (vols : nat -> Z)
    (n : musicNote) (p : MelodyPlayer) (k : nat) :
  note n = REST ->
  (forall j c o, tone_set (envs j) c REST o = false) ->
  U32.wrap (_tempo p) <> 0 ->
  _notePlayed p = false -> _started p = false ->
  call (playNote n) (envs 0%nat) p
  = Done (with_started true (with_msStart (U32.wrap (millis_at (envs 0%nat) 0)) p),
          [LedcWriteNote (_channel p) REST (octave n); LedcWrite (_channel p) 0]) /\
  exists q evs,
    loop (note_pass envs vols n) k p = Done (q, evs) /\
    forall ch d, In (LedcWrite ch d) evs -> d = 0.
Proof.
  intros Hr Hc Ht Hp Hs. split.
  - rewrite call_playNote_idle by assumption. rewrite Hr, Hc. reflexivity.
  - destruct (rest_loop_silent envs vols n p Hr Hc Ht k) as [q [evs [Hl [_ Hsil]]]].
    exists q, evs. split; assumption.
Qed.

(** A dotted whole rest, polled every 100 ms for 4 s while the volume is
    raised step by step from 300. *)
Lemma rest_is_never_audible_witness :
  exists q evs,
    loop (note_pass (fun j => board (100 * Z.of_nat j) 0)
                    (fun j => 300 + Z.of_nat j) (mkNote REST 5 N1d)) 40
         fresh_player = Done (q, evs) /\
    forall ch d, In (LedcWrite ch d) evs -> d = 0.
Proof.
  refine (proj2 (rest_is_never_audible
                   (fun j => board (100 * Z.of_nat j) 0)
                   (fun j => 300 + Z.of_nat j) (mkNote REST 5 N1d)
                   fresh_player 40 _ _ _ _ _)).
  - reflexivity.
  - intros j c o. reflexivity.
  - vm_compute. discriminate.
  - reflexivity.
  - reflexivity.
Defined.

(** ** Sequences that climb by steps of at most one *)

Section Staircase.

Variable f : nat -> Z.

Hypothesis f_step : forall j, f (S j) = f j \/ f (S j) = f j + 1.

Lemma stair_mono (j j' : nat) : (j <= j')%nat -> f j <= f j'.
Proof.
  induction 1 as [ | k _ IH]; [lia | ].
  destruct (f_step k); lia.
Qed.

(** The first index at which the level [v] is reached. *)
Lemma stair_cross (v : Z) (J : nat) :
  f 0%nat <= v <= f J ->
  exists a, (a <= J)%nat /\ f a = v /\ forall j, (j < a)%nat -> f j < v.
Proof.
  induction J as [ | J IH]; intros Hv.
  - exists 0%nat. repeat split; [lia | lia | intros j Hj; lia].
  - destruct (Z_le_gt_dec v (f J)) as [Hle | Hgt].
    + destruct IH as [a [Ha [Hfa Hlt]]]; [lia | ].
      exists a. repeat split; [lia | exact Hfa | exact Hlt].
    + exists (S J). repeat split; [lia | destruct (f_step J); lia | ].
      intros j Hj. assert (f j <= f J) by (apply stair_mono; lia). lia.
Qed.

(** Every level below the one reached at [T] is occupied during one
    non-empty run of consecutive indices. *)
Lemma stair_visit (N v : Z) (T : nat) :
  f 0%nat = 0 -> f T = N -> 0 <= v < N ->
  exists a b, (a <= b)%nat /\ forall j, f j = v <-> (a <= j <= b)%nat.
Proof.
  intros H0 HT Hv.
  destruct (stair_cross v T) as [a [_ [Hfa Ha]]]; [lia | ].
  destruct (stair_cross (v + 1) T) as [c [_ [Hfc Hc]]]; [lia | ].
  assert (Hac : (a < c)%nat).
  { destruct (Nat.lt_ge_cases a c) as [H | H]; [exact H | ].
    pose proof (stair_mono c a H). lia. }
  exists a, (pred c). split; [lia | ]. intros j. split.
  - intros Hj. split.
    + destruct (Nat.lt_ge_cases j a) as [H | H]; [ | exact H].
      specialize (Ha j H). lia.
    + destruct (Nat.lt_ge_cases j c) as [H | H]; [lia | ].
      pose proof (stair_mono c j H). lia.
  - intros [H1 H2].
    pose proof (stair_mono a j H1).
    assert (f j < v + 1) by (apply Hc; lia). lia.
Qed.

End Staircase.

(** The first step of a sequence across a bound. *)
Lemma first_above (g : nat -> Z) (b : Z) (j J : nat) :
  (j <= J)%nat -> g j <= b -> b < g J ->
  exists j1, (j <= j1 < J)%nat /\ g j1 <= b /\ b < g (S j1).
Proof.
  induction J as [ | J IH]; intros Hj Hlo Hhi.
  - assert (j = 0%nat) by lia. subst. lia.
  - destruct (Nat.eq_dec j (S J)) as [-> | Hne]; [lia | ].
    destruct (Z_le_gt_dec (g J) b) as [Hle | Hgt].
    + exists J. repeat split; [lia | lia | exact Hle | exact Hhi].
    + destruct IH as [j1 [H1 [H2 H3]]]; [lia | exact Hlo | lia | ].
      exists j1. repeat split; [lia | lia | exact H2 | exact H3].
Qed.

(** A reading of the wrapping clock taken [y] ms after a time congruent
    to [s] gives the difference [y]. *)
Lemma sub_wrap_congruent (a s y k : Z) :
  a - s = y + k * 4294967296 -> 0 <= y < 4294967296 ->
  U32.sub (U32.wrap a) s = y.
Proof.
  intros H Hy. unfold U32.sub, U32.wrap. rewrite modulus_val.
  rewrite Zminus_mod_idemp_l, H, Z_mod_plus_full.
  apply Z.mod_small. exact Hy.
Qed.

(** ** A melody played once *)

Section MelodyPass.

Variables (envs : nat -> Env) (m : list musicNote) (len : Z).
Variable p0 : MelodyPlayer.

Hypothesis len_ok : len = Z.of_nat (length m).
Hypothesis random_ok : forall j, 0 < len -> 0 <= random_lt (envs j) len < len.
Hypothesis tempo_ok : U32.wrap (_tempo p0) <> 0.
Hypothesis counter_ok : 0 <= _noteCounter p0 <= len.

Lemma steady_in_melody (j : nat) (q : MelodyPlayer) :
  steady len p0 q -> in_melody (envs j) m len q /\ U32.wrap (_tempo q) <> 0.
Proof.
  intros [Ht Hc]. split.
  - repeat split; [exact len_ok | lia | apply random_ok; assumption
                   | apply random_ok; assumption].
  - rewrite Ht. exact tempo_ok.
Qed.

(** One pass: the three cases, with what they do to the counter. *)
Lemma pass_cases (j : nat) (q : MelodyPlayer) :
  steady len p0 q ->
  (_noteCounter q = len /\
   melody_pass envs m len j q = Done (with_notePlayed false q, []))
  \/
  (_noteCounter q < len /\ _started q = false /\
   exists evs,
     melody_pass envs m len j q =
     Done (with_started true
             (with_msStart (U32.wrap (pass_time envs j)) (with_notePlayed false q)),
           evs))
  \/
  (_noteCounter q < len /\ _started q = true /\
   exists n,
     melody_pass envs m len j q =
     Done (if elapsed_at (envs j) 0 (_msStart q) >? target (value n) (_tempo q)
           then (with_noteCounter (_noteCounter q + 1)
                   (with_notePlayed true
                      (with_started false (with_notePlayed false q))),
                 [LedcWrite (_channel q) 0; Delay (_msNoteGap q)])
           else (with_notePlayed false q, []))).
Proof.
  intros Hq. destruct (steady_in_melody j q Hq) as [Hin Ht].
  destruct Hq as [_ Hc].
  destruct (call_playMelody_cases (envs j) m len false q Hin Ht)
    as [[Hend H] | [[n [_ [Hlt [Hs H]]]] | [n [_ [Hlt [Hs H]]]]]].
  - left. split; [lia | exact H].
  - right; left. repeat split; try assumption. eexists. exact H.
  - right; right. repeat split; try assumption. exists n. exact H.
Qed.

Lemma pass_steady (j : nat) (q : MelodyPlayer) :
  steady len p0 q ->
  exists q' evs,
    melody_pass envs m len j q = Done (q', evs) /\ steady len p0 q' /\
    (_noteCounter q' = _noteCounter q \/
     _noteCounter q' = _noteCounter q + 1).
Proof.
  intros Hq. pose proof Hq as [Ht Hc].
  destruct (pass_cases j q Hq)
    as [[Hend H] | [[Hlt [Hs [evs H]]] | [Hlt [Hs [n H]]]]].
  - eexists _, _. split; [exact H | ]. split; [split | left]; cbn; auto.
  - eexists _, _. split; [exact H | ]. split; [split | left]; cbn; auto.
  - destruct (_ >? _); eexists _, _; (split; [exact H | ]).
    + split; [split | right]; cbn; auto; lia.
    + split; [split | left]; cbn; auto.
Qed.

Lemma loop_steady (j : nat) :
  exists q evs, loop (melody_pass envs m len) j p0 = Done (q, evs) /\ steady len p0 q.
Proof.
  induction j as [ | j [q [evs [Hl Hq]]]].
  - exists p0, []. split; [reflexivity | split; [reflexivity | exact counter_ok]].
  - destruct (pass_steady j q Hq) as [q' [evs' [Hp [Hq' _]]]].
    exists q', (evs ++ evs'). cbn [loop]. rewrite Hl, Hp.
    split; [reflexivity | exact Hq'].
Qed.

Lemma cursor_at_step (j : nat) :
  cursor_at envs m len p0 (S j) = cursor_at envs m len p0 j \/
  cursor_at envs m len p0 (S j) = cursor_at envs m len p0 j + 1.
Proof.
  destruct (loop_steady j) as [q [evs [Hl Hq]]].
  destruct (pass_steady j q Hq) as [q' [evs' [Hp [_ Hc]]]].
  unfold cursor_at. cbn [loop]. rewrite Hl, Hp. exact Hc.
Qed.

Lemma cursor_at_range (j : nat) : 0 <= cursor_at envs m len p0 j <= len.
Proof.
  destruct (loop_steady j) as [q [evs [Hl [_ Hc]]]].
  unfold cursor_at. rewrite Hl. exact Hc.
Qed.

(** At the end of the melody nothing moves any more. *)
Lemma cursor_at_end (j k : nat) :
  cursor_at envs m len p0 j = len -> (j <= k)%nat -> cursor_at envs m len p0 k = len.
Proof.
  intros Hj Hk. pose proof (stair_mono (cursor_at envs m len p0) cursor_at_step j k Hk).
  pose proof (cursor_at_range k). lia.
Qed.

(** *** Progress *)

Hypothesis clock_mono :
  forall j, pass_time envs j <= pass_time envs (S j) <= pass_time envs j + 2147483648.
Hypothesis clock_runs : forall T, exists j, T < pass_time envs j.

Lemma pass_time_mono (j j' : nat) :
  (j <= j')%nat -> pass_time envs j <= pass_time envs j'.
Proof.
  induction 1 as [ | k _ IH]; [lia | ]. pose proof (clock_mono k). lia.
Qed.

(** Whatever start time is stored, some later pass reads a clock on
    which more than the longest note has elapsed. *)
Lemma clock_passes (j : nat) (s : Z) :
  exists j1, (j <= j1)%nat /\ 360000 < elapsed_at (envs j1) 0 s.
Proof.
  set (k := (pass_time envs j - s) / 4294967296 + 1).
  set (b := s + k * 4294967296 + 360000).
  assert (Hb : pass_time envs j <= b).
  { pose proof (Z.div_mod (pass_time envs j - s) 4294967296 ltac:(lia)) as D.
    pose proof (Z.mod_pos_bound (pass_time envs j - s) 4294967296 ltac:(lia)).
    unfold b, k. lia. }
  destruct (clock_runs b) as [J HJ].
  assert (HjJ : (j <= J)%nat).
  { destruct (Nat.le_gt_cases j J) as [H | H]; [exact H | ].
    pose proof (pass_time_mono J j ltac:(lia)). lia. }
  destruct (first_above (pass_time envs) b j J HjJ Hb HJ) as [j1 [H1 [H2 H3]]].
  exists (S j1). split; [lia | ].
  pose proof (clock_mono j1) as Hm.
  unfold elapsed_at. fold (pass_time envs (S j1)).
  rewrite (sub_wrap_congruent (pass_time envs (S j1)) s
             (pass_time envs (S j1) - s - k * 4294967296) k); unfold b in *; lia.
Qed.

Lemma sounding_completes (d j : nat) (q : MelodyPlayer) (evs : list Event) :
  loop (melody_pass envs m len) j p0 = Done (q, evs) -> steady len p0 q ->
  _noteCounter q < len -> _started q = true ->
  360000 < elapsed_at (envs (j + d)%nat) 0 (_msStart q) ->
  exists j', (j < j')%nat /\ cursor_at envs m len p0 j' = _noteCounter q + 1.
Proof.
  revert j q evs. induction d as [ | d IH]; intros j q evs Hl Hq Hlt Hs He.
  - exists (S j). split; [lia | ].
    destruct (pass_cases j q Hq)
      as [[Hend _] | [[_ [Hs' _]] | [_ [_ [n H]]]]]; [lia | congruence | ].
    rewrite Nat.add_0_r in He.
    pose proof (target_bound (value n) (_tempo q)).
    destruct (Z.gtb_spec (elapsed_at (envs j) 0 (_msStart q))
                         (target (value n) (_tempo q))); [ | lia].
    unfold cursor_at. cbn [loop]. rewrite Hl, H. reflexivity.
  - destruct (pass_cases j q Hq)
      as [[Hend _] | [[_ [Hs' _]] | [_ [_ [n H]]]]]; [lia | congruence | ].
    destruct (Z.gtb_spec (elapsed_at (envs j) 0 (_msStart q))
                         (target (value n) (_tempo q))).
    + exists (S j). split; [lia | ].
      unfold cursor_at. cbn [loop]. rewrite Hl, H. reflexivity.
    + destruct (IH (S j) (with_notePlayed false q) (evs ++ []))
        as [j' [Hj' Hc]].
      * cbn [loop]. rewrite Hl, H. reflexivity.
      * destruct Hq. split; assumption.
      * exact Hlt.
      * exact Hs.
      * replace (S j + d)%nat with (j + S d)%nat by lia. exact He.
      * exists j'. split; [lia | exact Hc].
Qed.

Lemma note_completes (j : nat) (q : MelodyPlayer) (evs : list Event) :
  loop (melody_pass envs m len) j p0 = Done (q, evs) -> steady len p0 q ->
  _noteCounter q < len ->
  exists j', (j < j')%nat /\ cursor_at envs m len p0 j' = _noteCounter q + 1.
Proof.
  intros Hl Hq Hlt. destruct (_started q) eqn:Hs.
  - destruct (clock_passes j (_msStart q)) as [j1 [Hj1 He]].
    apply (sounding_completes (j1 - j) j q evs); try assumption.
    replace (j + (j1 - j))%nat with j1 by lia. exact He.
  - destruct (pass_cases j q Hq)
      as [[Hend _] | [[_ [_ [evs' H]]] | [_ [Hs' _]]]]; [lia | | congruence].
    set (q' := with_started true
                 (with_msStart (U32.wrap (pass_time envs j))
                    (with_notePlayed false q))) in H.
    destruct (clock_passes (S j) (_msStart q')) as [j1 [Hj1 He]].
    destruct (sounding_completes (j1 - S j) (S j) q' (evs ++ evs'))
      as [j' [Hj' Hc]].
    + cbn [loop]. rewrite Hl, H. reflexivity.
    + destruct Hq. split; assumption.
    + exact Hlt.
    + reflexivity.
    + replace (S j + (j1 - S j))%nat with j1 by lia. exact He.
    + exists j'. split; [lia | exact Hc].
Qed.

Lemma reaches_end (c : nat) :
  forall j, len - cursor_at envs m len p0 j = Z.of_nat c ->
            exists T, (j <= T)%nat /\ cursor_at envs m len p0 T = len.
Proof.
  induction c as [ | c IH]; intros j Hc.
  - exists j. split; [lia | lia].
  - destruct (loop_steady j) as [q [evs [Hl Hq]]].
    assert (Hcur : cursor_at envs m len p0 j = _noteCounter q)
      by (unfold cursor_at; rewrite Hl; reflexivity).
    destruct (note_completes j q evs Hl Hq ltac:(lia)) as [j' [Hj' Hc']].
    destruct (IH j' ltac:(lia)) as [T [HT HTc]].
    exists T. split; [lia | exact HTc].
Qed.

End MelodyPass.

(** ** The metronome over many passes *)

Section Metronome.

Variables (envs : nat -> Env) (p0 : MelodyPlayer) (gap : Z).

(** Every reading of the clock during one pass gives the same time. *)
Hypothesis instant : forall j k, millis_at (envs j) k = pass_time envs j.
Hypothesis tempo_ok : 0 < _tempo p0 <= 2147483647.
Hypothesis clock_gap :
  forall j, pass_time envs j <= pass_time envs (S j) <= pass_time envs j + gap.
Hypothesis gap_ok : gap <= 2147483648.

Local Abbreviation P := (60000 / _tempo p0).

Lemma P_range : 0 <= P <= 60000.
Proof.
  split.
  - apply Z.div_pos; lia.
  - apply Z.div_le_upper_bound; nia.
Qed.

Lemma same_period (q : MelodyPlayer) :
  same p0 q -> U32.wrap (_tempo q) <> 0 /\ period q = P.
Proof.
  intros [Ht _]. unfold period. rewrite Ht, wrap_small by lia.
  split; [lia | reflexivity].
Qed.

Lemma beat_pass_trigger (j : nat) (q : MelodyPlayer) :
  same p0 q -> _started q = false ->
  beat_pass envs j q =
  Done (with_msStart (U32.wrap (pass_time envs j)) (with_started true q),
        [LedcWriteNote 0 NOTE_A 7; LedcWrite (_channel p0) (_volume p0)]).
Proof.
  intros Hq Hs. destruct (same_period q Hq) as [Ht HP].
  destruct Hq as [_ [Hc Hv]].
  unfold beat_pass. rewrite call_playBeats by exact Ht.
  unfold armed, first_check, trigger, elapsed_at. rewrite Hs, HP, Hc, Hv.
  cbn [_msStart with_msStart]. rewrite !instant, sub_self.
  pose proof P_range.
  destruct (Z.gtb_spec 0 P); [lia | ].
  destruct (Z.gtb_spec 0 4); [lia | ]. reflexivity.
Qed.

Lemma beat_pass_armed (j : nat) (q : MelodyPlayer) :
  same p0 q -> _started q = true ->
  beat_pass envs j q =
  Done (if elapsed_at (envs j) 0 (_msStart q) >? P
        then with_started false q else q,
        if elapsed_at (envs j) 0 (_msStart q) >? 4
        then [LedcWrite (_channel p0) 0] else []).
Proof.
  intros Hq Hs. destruct (same_period q Hq) as [Ht HP].
  destruct Hq as [_ [Hc Hv]].
  unfold beat_pass. rewrite call_playBeats by exact Ht.
  unfold armed, first_check, trigger, elapsed_at. rewrite Hs, HP, Hc.
  rewrite !instant. reflexivity.
Qed.

Lemma beat_pass_same (j : nat) (q : MelodyPlayer) :
  same p0 q -> exists q' evs, beat_pass envs j q = Done (q', evs) /\ same p0 q'.
Proof.
  intros Hq. destruct (_started q) eqn:Hs.
  - rewrite beat_pass_armed by assumption.
    destruct (_ >? P); eexists _, _; (split; [reflexivity | exact Hq]).
  - rewrite beat_pass_trigger by assumption.
    eexists _, _. split; [reflexivity | exact Hq].
Qed.

Lemma beat_loop_same (j : nat) :
  exists q evs, loop (beat_pass envs) j p0 = Done (q, evs) /\ same p0 q.
Proof.
  induction j as [ | j [q [evs [Hl Hq]]]].
  - exists p0, []. repeat split.
  - destruct (beat_pass_same j q Hq) as [q' [evs' [Hp Hq']]].
    exists q', (evs ++ evs'). cbn [loop]. rewrite Hl, Hp.
    split; [reflexivity | exact Hq'].
Qed.

Lemma pass_time_le (j j' : nat) :
  (j <= j')%nat -> pass_time envs j <= pass_time envs j'.
Proof.
  induction 1 as [ | k _ IH]; [lia | ]. pose proof (clock_gap k). lia.
Qed.

(** *** From a trigger to the next *)

Section AfterTrigger.

Variable j0 : nat.

Hypothesis triggered : started_before envs p0 j0 = false.

Local Abbreviation t0 := (pass_time envs j0).

Lemma armed_until (d : nat) :
    within envs p0 j0 d ->
    exists q evs,
      loop (beat_pass envs) (j0 + S d) p0 = Done (q, evs) /\ same p0 q /\
      _started q = true /\ _msStart q = U32.wrap t0.
  Proof.
    induction d as [ | d IH]; intros Hw.
    - destruct (beat_loop_same j0) as [q [evs [Hl Hq]]].
      assert (Hs : _started q = false)
        by (unfold started_before in triggered; rewrite Hl in triggered;
            exact triggered).
      replace (j0 + 1)%nat with (S j0) by lia. cbn [loop].
      rewrite Hl, beat_pass_trigger by assumption.
      eexists _, _. split; [reflexivity | ]. repeat split; apply Hq.
    - destruct IH as [q [evs [Hl [Hq [Hs Hm]]]]].
      { intros i Hi. apply Hw. lia. }
      replace (j0 + S (S d))%nat with (S (j0 + S d)) by lia. cbn [loop].
      rewrite Hl, beat_pass_armed by assumption.
      assert (He : elapsed_at (envs (j0 + S d)) 0 (_msStart q)
                   = pass_time envs (j0 + S d) - t0).
      { unfold elapsed_at. rewrite Hm. fold (pass_time envs (j0 + S d)).
        replace (pass_time envs (j0 + S d))
          with (t0 + (pass_time envs (j0 + S d) - t0)) at 1 by lia.
        apply sub_wrap_elapsed.
        pose proof (pass_time_le j0 (j0 + S d) ltac:(lia)).
        pose proof (Hw (j0 + S d)%nat ltac:(lia)). pose proof P_range.
        fold t0 in H. lia. }
      rewrite He.
      pose proof (Hw (j0 + S d)%nat ltac:(lia)).
      destruct (Z.gtb_spec (pass_time envs (j0 + S d) - t0) P); [lia | ].
      eexists _, _. split; [reflexivity | ]. repeat split; try apply Hq; assumption.
  Qed.

(** The pass after them finds the click armed and compares the true
      elapsed time with 4 ms and with the period. *)
Lemma armed_pass (d : nat) :
    within envs p0 j0 d ->
    let el := pass_time envs (j0 + S d) - t0 in
    0 <= el <= P + gap /\
    sent_in envs p0 (j0 + S d)
    = (if el >? 4 then [LedcWrite (_channel p0) 0] else []) /\
    started_before envs p0 (S (j0 + S d)) = negb (el >? P).
  Proof.
    intros Hw el.
    destruct (armed_until d Hw) as [q [evs [Hl [Hq [Hs Hm]]]]].
    assert (Hel : 0 <= el <= P + gap).
    { unfold el. pose proof (pass_time_le j0 (j0 + S d) ltac:(lia)) as H1.
      fold t0 in H1. split; [lia | ].
      pose proof (clock_gap (j0 + d)) as H2.
      replace (S (j0 + d)) with (j0 + S d)%nat in H2 by lia.
      destruct d as [ | d].
      - rewrite Nat.add_0_r in H2. fold t0 in H2. pose proof P_range. lia.
      - pose proof (Hw (j0 + S d)%nat ltac:(lia)). lia. }
    assert (He : elapsed_at (envs (j0 + S d)) 0 (_msStart q) = el).
    { unfold elapsed_at. rewrite Hm. fold (pass_time envs (j0 + S d)).
      replace (pass_time envs (j0 + S d)) with (t0 + el) by (unfold el; lia).
      apply sub_wrap_elapsed. pose proof P_range. lia. }
    split; [exact Hel | ]. split.
    - unfold sent_in. rewrite Hl, beat_pass_armed, He by assumption. reflexivity.
    - unfold started_before. cbn [loop].
      rewrite Hl, beat_pass_armed, He by assumption.
      destruct (el >? P); [reflexivity | exact Hs].
  Qed.

(** While no later pass sends anything, the passes stay within 4 ms
      of the trigger. *)
Lemma quiet_within (d : nat) :
    4 <= P ->
    (forall i, (j0 < i <= j0 + d)%nat -> sent_in envs p0 i = []) ->
    forall i, (j0 < i <= j0 + d)%nat -> pass_time envs i - t0 <= 4.
  Proof.
    intros HP. induction d as [ | d IH]; intros Hq i Hi; [lia | ].
    assert (IH' : forall i, (j0 < i <= j0 + d)%nat -> pass_time envs i - t0 <= 4)
      by (apply IH; intros i' Hi'; apply Hq; lia).
    destruct (Nat.eq_dec i (j0 + S d)) as [-> | Hne]; [ | apply IH'; lia].
    destruct (armed_pass d) as [_ [Hsent _]].
    { intros i' Hi'. specialize (IH' i' Hi'). lia. }
    rewrite Hq in Hsent by lia.
    destruct (Z.gtb_spec (pass_time envs (j0 + S d) - t0) 4); [discriminate | lia].
  Qed.

(** While every later pass finds the click armed, the passes before
      the last of them stay within the period. *)
Lemma armed_within (d : nat) :
    (forall i, (j0 < i <= j0 + S d)%nat -> started_before envs p0 i = true) ->
    within envs p0 j0 d.
  Proof.
    induction d as [ | d IH]; intros Ha i Hi; [lia | ].
    assert (IH' : within envs p0 j0 d) by (apply IH; intros i' Hi'; apply Ha; lia).
    destruct (Nat.eq_dec i (j0 + S d)) as [-> | Hne]; [ | apply IH'; lia].
    destruct (armed_pass d IH') as [_ [_ Hst]].
    rewrite Ha in Hst by lia.
    destruct (Z.gtb_spec (pass_time envs (j0 + S d) - t0) P); [discriminate | lia].
  Qed.

Lemma next_trigger_spacing (j1 : nat) :
    (j0 < j1)%nat -> started_before envs p0 j1 = false ->
    (forall i, (j0 < i < j1)%nat -> started_before envs p0 i = true) ->
    P < pass_time envs j1 - t0 <= P + 2 * gap.
  Proof.
    intros Hlt Hj1 Hbetween.
    destruct (Nat.eq_dec j1 (S j0)) as [-> | Hne].
    - destruct (armed_until 0) as [q [evs [Hl [_ [Hs _]]]]].
      { intros i Hi. lia. }
      unfold started_before in Hj1.
      replace (j0 + 1)%nat with (S j0) in Hl by lia.
      rewrite Hl in Hj1. congruence.
    - set (d := (j1 - j0 - 2)%nat).
      assert (Hj : j1 = S (j0 + S d)) by (unfold d; lia).
      assert (Hw : within envs p0 j0 d).
      { apply armed_within. intros i Hi. apply Hbetween. lia. }
      destruct (armed_pass d Hw) as [Hel [_ Hst]].
      rewrite <- Hj, Hj1 in Hst.
      destruct (Z.gtb_spec (pass_time envs (j0 + S d) - t0) P); [ | discriminate].
      pose proof (clock_gap (j0 + S d)) as Hg. rewrite <- Hj in Hg. lia.
  Qed.

Lemma first_silence (k : nat) :
    4 <= P -> (j0 < k)%nat ->
    (forall i, (j0 < i < k)%nat -> sent_in envs p0 i = []) ->
    sent_in envs p0 k <> [] ->
    sent_in envs p0 k = [LedcWrite (_channel p0) 0] /\
    4 < pass_time envs k - t0 <= 4 + gap.
  Proof.
    intros HP Hlt Hquiet Hsent.
    set (d := (k - j0 - 1)%nat).
    assert (Hk : k = (j0 + S d)%nat) by (unfold d; lia).
    assert (Hq : forall i, (j0 < i <= j0 + d)%nat -> pass_time envs i - t0 <= 4)
      by (apply quiet_within; [exact HP | intros i Hi; apply Hquiet; lia]).
    destruct (armed_pass d) as [_ [Hs _]].
    { intros i Hi. specialize (Hq i Hi). lia. }
    rewrite <- Hk in Hs. rewrite Hs in Hsent |- *.
    destruct (Z.gtb_spec (pass_time envs k - t0) 4); [ | contradiction].
    split; [reflexivity | ]. split; [lia | ].
    destruct d as [ | d].
    - pose proof (clock_gap j0) as Hg. replace k with (S j0) by lia. fold t0 in Hg. lia.
    - pose proof (Hq (j0 + S d)%nat ltac:(lia)).
      pose proof (clock_gap (j0 + S d)) as Hg.
      replace (S (j0 + S d)) with k in Hg by lia. lia.
  Qed.

End AfterTrigger.

End Metronome.

(** ** The end of the melody *)

Lemma with_notePlayed_same (p : MelodyPlayer) :
  _notePlayed p = false -> with_notePlayed false p = p.
Proof. destruct p; cbn; intros ->; reflexivity. Qed.

(** The played flag is not seen by the calls of the main loop. *)
Lemma same_playback_state_refl (p : MelodyPlayer) : same_playback_state p p.
Proof. repeat split. Qed.

Lemma same_playback_state_flag (b : bool) (p : MelodyPlayer) :
  same_playback_state p (with_notePlayed b p).
Proof. repeat split. Qed.

Lemma same_playback_state_eq (p q : MelodyPlayer) :
  same_playback_state p q -> q = with_notePlayed (_notePlayed q) p.
Proof.
  destruct p, q. unfold same_playback_state. cbn.
  intros [-> [-> [-> [-> [-> [-> [-> [-> [-> [-> [-> ->]]]]]]]]]]].
  reflexivity.
Qed.

Lemma same_outcome_refl (a : Outcome) : same_outcome a a.
Proof.
  destruct a as [[q evs] | f]; cbn; [ | reflexivity].
  split; [apply same_playback_state_refl | reflexivity].
Qed.

Lemma call_playMelody_flag (e : Env) (m : list musicNote) (len : Z)
    (repeat b : bool) (p : MelodyPlayer) :
  call (playMelody m len repeat) e (with_notePlayed b p)
  = call (playMelody m len repeat) e p.
Proof.
  destruct p. unfold call, playMelody. run_member. reflexivity.
Qed.

Lemma call_playBeats_flag (e : Env) (b : bool) (p : MelodyPlayer) :
  call playBeats e (with_notePlayed b p)
  = match call playBeats e p with
    | Done (q, evs) => Done (with_notePlayed b q, evs)
    | Trap f => Trap f
    end.
Proof.
  destruct (Z.eq_dec (U32.wrap (_tempo p)) 0) as [Ht | Ht].
  - rewrite !call_playBeats_trap by exact Ht. reflexivity.
  - rewrite !call_playBeats by exact Ht.
    unfold armed, first_check, trigger, period, elapsed_at.
    destruct p as [pin ch vol st gap prev cnt started played rnd len tempo mel].
    destruct started; cbn; destruct (_ >? _); reflexivity.
Qed.

(** C4.  A call of [playMelody] that finds the note counter at or past
    the length sends nothing; with repeat it resets the counter to 0;
    without repeat it leaves the counter and the whole playback state as
    they are, and every further call at the end returns the object as it
    found it.  The playback state is every member but the played flag,
    the report of [playNote] to [playMelody], that the call clears: no
    call of [playMelody] or of [playBeats] can tell two objects with the
    same playback state apart.  Without repeat, from counter 0 and on a
    board whose clock keeps running, the counter moves by single
    increments only, reaches the length after finitely many passes and
    stays there, and holds each value 0..N-1 during one non-empty run of
    consecutive passes. *)
Theorem playMelody_end_and_single_pass (envs : nat -> Env)
    (m : list musicNote) (len : Z) (p0 : MelodyPlayer) :
  (forall e p, len <= _noteCounter p ->
     (exists q,
        call (playMelody m len true) e p = Done (q, []) /\
        _noteCounter q = 0 /\ _notePlayed q = false /\
        same_playback_state (with_noteCounter 0 p) q) /\
     (exists q,
        call (playMelody m len false) e p = Done (q, []) /\
        same_playback_state p q /\ _notePlayed q = false /\
        forall k envs', loop (melody_pass envs' m len) k q = Done (q, []))) /\
  (forall e repeat p q, same_playback_state p q ->
     call (playMelody m len repeat) e p = call (playMelody m len repeat) e q /\
     same_outcome (call (playMelody_set repeat) e p)
                  (call (playMelody_set repeat) e q) /\
     same_outcome (call playBeats e p) (call playBeats e q)) /\
  (len = Z.of_nat (length m) ->
   (forall j, 0 < len -> 0 <= random_lt (envs j) len < len) ->
   U32.wrap (_tempo p0) <> 0 ->
   _noteCounter p0 = 0 ->
   (forall j, pass_time envs j <= pass_time envs (S j)
              <= pass_time envs j + 2147483648) ->
   (forall T, exists j, T < pass_time envs j) ->
   let cursor := cursor_at envs m len p0 in
   (forall j, cursor (S j) = cursor j \/ cursor (S j) = cursor j + 1) /\
   exists T,
     cursor T = len /\
     (forall k, (T <= k)%nat -> cursor k = len) /\
     forall v, 0 <= v < len ->
       exists a b, (a <= b < T)%nat /\
                   forall j, cursor j = v <-> (a <= j <= b)%nat).
Proof.
  split; [ | split].
  - intros e p Hend. split.
    + exists (with_noteCounter 0 (with_notePlayed false p)).
      split; [apply (call_playMelody_end e m len true p Hend) | ].
      repeat split.
    + exists (with_notePlayed false p).
      split; [apply (call_playMelody_end e m len false p Hend) | ].
      split; [apply same_playback_state_flag | ]. split; [reflexivity | ].
      intros k envs'. induction k as [ | k IH]; [reflexivity | ].
      cbn [loop]. rewrite IH. unfold melody_pass.
      rewrite call_playMelody_end by exact Hend.
      rewrite with_notePlayed_same by reflexivity. reflexivity.
  - intros e repeat p q Hpq.
    rewrite (same_playback_state_eq p q Hpq). split; [ | split].
    + rewrite call_playMelody_flag. reflexivity.
    + unfold playMelody_set, call, bind, this. cbn [self reads sent].
      change (_melody (with_notePlayed (_notePlayed q) p)) with (_melody p).
      change (_melodyLength (with_notePlayed (_notePlayed q) p))
        with (_melodyLength p).
      destruct (_melody p) as [m' | ].
      * fold (call (playMelody m' (_melodyLength p) repeat) e p).
        fold (call (playMelody m' (_melodyLength p) repeat) e
                (with_notePlayed (_notePlayed q) p)).
        rewrite call_playMelody_flag. apply same_outcome_refl.
      * cbn. split; [apply same_playback_state_flag | reflexivity].
    + rewrite call_playBeats_flag.
      destruct (call playBeats e p) as [[q' evs] | f]; cbn; [ | reflexivity].
      split; [apply same_playback_state_flag | reflexivity].
  - intros Hlen Hrand Ht Hc0 Hmono Hruns cursor.
    assert (Hc : 0 <= _noteCounter p0 <= len) by lia.
    pose proof (cursor_at_step envs m len p0 Hlen Hrand Ht Hc) as Hstep.
    assert (H0 : cursor 0%nat = 0) by exact Hc0.
    split; [exact Hstep | ].
    destruct (reaches_end envs m len p0 Hlen Hrand Ht Hc Hmono Hruns
                (Z.to_nat len) 0%nat) as [T [_ HT]].
    { fold cursor. lia. }
    exists T. split; [exact HT | ]. split.
    + intros k Hk.
      apply (cursor_at_end envs m len p0 Hlen Hrand Ht Hc T k HT Hk).
    + intros v Hv.
      destruct (stair_visit cursor Hstep len v T H0 HT Hv) as [a [b [Hab Hj]]].
      exists a, b. split; [ | exact Hj]. split; [exact Hab | ].
      destruct (Nat.lt_ge_cases b T) as [H | H]; [exact H | ].
      pose proof (stair_mono cursor Hstep T b H) as Hm.
      assert (cursor b = v) by (apply Hj; lia).
      fold cursor in HT. lia.
Qed.

Lemma playMelody_end_and_single_pass_witness :
  (exists q,
     call (playMelody [a4; mkNote REST 5 N8] 2 false) (slow_loop 9)
          (with_notePlayed true (with_noteCounter 2 fresh_player))
     = Done (q, []) /\
     same_playback_state
       (with_notePlayed true (with_noteCounter 2 fresh_player)) q) /\
  exists T,
    cursor_at slow_loop [a4; mkNote REST 5 N8] 2 fresh_player T = 2 /\
    forall k, (T <= k)%nat ->
              cursor_at slow_loop [a4; mkNote REST 5 N8] 2 fresh_player k = 2.
Proof.
  destruct (playMelody_end_and_single_pass slow_loop [a4; mkNote REST 5 N8] 2
              fresh_player) as [Hend [_ H]].
  split.
  { destruct (Hend (slow_loop 9)
                (with_notePlayed true (with_noteCounter 2 fresh_player)))
      as [_ [q [Hq [Hs _]]]]; [cbn; lia | ].
    exists q. split; [exact Hq | exact Hs]. }
  destruct H as [_ [T [HT [Hstay _]]]].
  - reflexivity.
  - intros j _. cbn. lia.
  - vm_compute. discriminate.
  - reflexivity.
  - intros j. unfold pass_time, slow_loop. cbn [millis_at board]. lia.
  - intros T. exists (Z.to_nat (Z.max 0 T + 1)).
    unfold pass_time, slow_loop. cbn [millis_at board]. lia.
  - exists T. split; [exact HT | exact Hstay].
Defined.

(** ** The metronome *)

(** C7, in the form the code satisfies, for a tempo t > 0.  A call of
    [playBeats] that
    finds the started flag clear sends the pitch A7 and the volume and
    records the time; a call that finds it set sends a duty-0 write when
    more than 4 ms have elapsed; either call then leaves the flag set
    unless more than 60000 / t ms have elapsed.  When every pass of the
    loop reads one time and successive passes are at most [gap] ms apart,
    the pass that triggers leaves the flag set; the next trigger comes
    more than 60000 / t and at most 60000 / t + 2 * gap ms after it; and
    when 60000 / t >= 4, the first pass after the trigger that sends
    anything sends the duty-0 write, more than 4 and at most 4 + gap ms
    after the trigger. *)
Theorem playBeats_click (envs : nat -> Env) (p0 : MelodyPlayer) (gap : Z) :
  0 < _tempo p0 <= 2147483647 ->
  (forall e p, _tempo p = _tempo p0 ->
     (_started p = false ->
      exists q,
        call playBeats e p
        = Done (q, [LedcWriteNote 0 NOTE_A 7; LedcWrite (_channel p) (_volume p)]
                   ++ (if elapsed_at e 1 (U32.wrap (millis_at e 0)) >? 4
                       then [LedcWrite (_channel p) 0] else [])) /\
        _msStart q = U32.wrap (millis_at e 0) /\
        _started q
        = negb (elapsed_at e 2 (U32.wrap (millis_at e 0)) >? 60000 / _tempo p0)) /\
     (_started p = true ->
      exists q,
        call playBeats e p
        = Done (q, if elapsed_at e 0 (_msStart p) >? 4
                   then [LedcWrite (_channel p) 0] else []) /\
        _msStart q = _msStart p /\
        _started q = negb (elapsed_at e 1 (_msStart p) >? 60000 / _tempo p0))) /\
  ((forall j k, millis_at (envs j) k = pass_time envs j) ->
   (forall j, pass_time envs j <= pass_time envs (S j) <= pass_time envs j + gap) ->
   gap <= 2147483648 ->
   forall j0, started_before envs p0 j0 = false ->
     sent_in envs p0 j0
     = [LedcWriteNote 0 NOTE_A 7; LedcWrite (_channel p0) (_volume p0)] /\
     started_before envs p0 (S j0) = true /\
     (forall j1, (j0 < j1)%nat -> started_before envs p0 j1 = false ->
        (forall i, (j0 < i < j1)%nat -> started_before envs p0 i = true) ->
        60000 / _tempo p0 < pass_time envs j1 - pass_time envs j0
        <= 60000 / _tempo p0 + 2 * gap) /\
     (4 <= 60000 / _tempo p0 ->
      forall k, (j0 < k)%nat ->
        (forall i, (j0 < i < k)%nat -> sent_in envs p0 i = []) ->
        sent_in envs p0 k <> [] ->
        sent_in envs p0 k = [LedcWrite (_channel p0) 0] /\
        4 < pass_time envs k - pass_time envs j0 <= 4 + gap)).
Proof.
  intros Ht. split.
  - intros e p Hp.
    assert (Hw : U32.wrap (_tempo p) = _tempo p0)
      by (rewrite Hp; apply wrap_small; lia).
    assert (Hn : U32.wrap (_tempo p) <> 0) by lia.
    split; intros Hs; rewrite (call_playBeats e p Hn);
      unfold armed, first_check, trigger, period; rewrite Hs, Hw;
      cbn [_msStart with_msStart];
      eexists; (split; [reflexivity | ]);
      destruct (_ >? 60000 / _tempo p0); cbn; auto.
  - intros Hinst Hgap Hg j0 Htrig. repeat split.
    + destruct (beat_loop_same envs p0 Hinst Ht j0) as [q [evs [Hl Hq]]].
      unfold sent_in. rewrite Hl.
      unfold started_before in Htrig. rewrite Hl in Htrig.
      rewrite (beat_pass_trigger envs p0 Hinst Ht j0 q Hq Htrig). reflexivity.
    + destruct (armed_until envs p0 gap Hinst Ht Hgap j0 Htrig 0)
        as [q [evs [Hl [_ [Hs _]]]]].
      { intros i Hi. lia. }
      unfold started_before. replace (S j0) with (j0 + 1)%nat by lia.
      rewrite Hl. exact Hs.
    + apply (next_trigger_spacing envs p0 gap Hinst Ht Hgap Hg j0 Htrig j1);
        assumption.
    + apply (next_trigger_spacing envs p0 gap Hinst Ht Hgap Hg j0 Htrig j1);
        assumption.
    + apply (first_silence envs p0 gap Hinst Ht Hgap Hg j0 Htrig k); assumption.
    + apply (first_silence envs p0 gap Hinst Ht Hgap Hg j0 Htrig k); assumption.
    + apply (first_silence envs p0 gap Hinst Ht Hgap Hg j0 Htrig k); assumption.
Qed.

Lemma forallb_seq (f : nat -> bool) (a n : nat) :
  forallb f (seq a n) = true -> forall i, (a <= i < a + n)%nat -> f i = true.
Proof.
  intros H i Hi. rewrite forallb_forall in H. apply H, in_seq. exact Hi.
Qed.

Lemma playBeats_click_witness :
  (sent_in steady_loop metronome_player 1 = [LedcWrite 0 0] /\
   4 < pass_time steady_loop 1 - pass_time steady_loop 0 <= 4 + 10) /\
  60000 / 114 < pass_time steady_loop 54 - pass_time steady_loop 0
  <= 60000 / 114 + 2 * 10.
Proof.
  destruct (playBeats_click steady_loop metronome_player 10) as [_ H];
    [cbn; lia | ].
  destruct (H ltac:(intros j k; reflexivity)
              ltac:(intros j; unfold pass_time, steady_loop;
                    cbn [millis_at board]; lia)
              ltac:(lia) 0%nat eq_refl) as [_ [_ [Hspace Hwidth]]].
  split.
  - apply Hwidth.
    + vm_compute. discriminate.
    + lia.
    + intros i Hi. lia.
    + vm_compute. discriminate.
  - apply Hspace.
    + lia.
    + vm_compute. reflexivity.
    + intros i Hi.
      apply (forallb_seq (started_before steady_loop metronome_player) 1 53);
        [vm_compute; reflexivity | lia].
Defined.

(** C7 as specified does not hold in two ways.  At tempo 20000 the period
    is 3 ms: polled every millisecond for 60 ms, the metronome rearms at
    4 ms elapsed, before anything exceeds 4 ms, so it triggers twelve
    times and never sends a duty-0 write.  At tempo 114 the period is
    526 ms: with passes never more than 10 ms apart, a trigger at 0 ms is
    followed by passes at 526 ms (not yet over), 536 ms (flag cleared) and
    546 ms (next trigger), 20 ms and not 10 ms after the period. *)
Lemma click_unsilenced_and_trigger_two_passes_late :
  (60000 / 20000 = 3 /\
   exists q evs,
     loop (beat_pass quick_loop) 60 (with_tempo 20000 metronome_player)
     = Done (q, evs) /\
     length (filter is_command evs) = 24%nat /\
     filter is_silence evs = []) /\
  (60000 / 114 = 526 /\
   (forall j, 0 <= pass_time late_loop (S j) - pass_time late_loop j <= 10) /\
   started_before late_loop metronome_player 0 = false /\
   forallb (started_before late_loop metronome_player) (seq 1 54) = true /\
   started_before late_loop metronome_player 55 = false /\
   pass_time late_loop 55 - pass_time late_loop 0 = 546).
Proof.
  split; [split; [reflexivity | ] | ].
  - eexists _, _. split; [vm_compute; reflexivity | ].
    split; vm_compute; reflexivity.
  - split; [reflexivity | ]. split.
    + intros j. unfold pass_time, late_loop. cbn [millis_at board]. lia.
    + repeat split; vm_compute; reflexivity.
Qed.

(** * Further properties of the player *)

(** ** The setters *)

(** X1: whatever unsigned value [setLegato] is given, the gap it stores is
    that value capped at 100, and the pause that [playNote] makes when it
    ends a note afterwards is that gap, so never longer than 100 ms. *)
Theorem setLegato_caps_the_pause (g : Z) (e : Env) (n : musicNote)
    (p : MelodyPlayer) :
  0 <= g ->
  call (setLegato g) e p = Done (with_msNoteGap (Z.min g 100) p, []) /\
  0 <= Z.min g 100 <= 100 /\
  (_notePlayed p = false -> _started p = true -> U32.wrap (_tempo p) <> 0 ->
   elapsed_at e 0 (_msStart p) > target (value n) (_tempo p) ->
   call (setLegato g ;; playNote n) e p
   = Done (with_notePlayed true
             (with_started false (with_msNoteGap (Z.min g 100) p)),
           [LedcWrite (_channel p) 0; Delay (Z.min g 100)])).
Proof.
  intros Hg.
  assert (Hmin : (if g <=? 100 then g else 100) = Z.min g 100)
    by (destruct (Z.leb_spec g 100); lia).
  split; [ | split; [lia | ]].
  - unfold call, setLegato, update. cbn [self sent]. rewrite Hmin. reflexivity.
  - intros Hp Hs Ht He.
    change (call (setLegato g ;; playNote n) e p)
      with (call (playNote n) e
              (with_msNoteGap (if g <=? 100 then g else 100) p)).
    rewrite Hmin, call_playNote_sounding by assumption.
    cbn [_msStart _tempo _channel _msNoteGap with_msNoteGap].
    destruct (Z.gtb_spec (elapsed_at e 0 (_msStart p))
                         (target (value n) (_tempo p))); [reflexivity | lia].
Qed.

Lemma setLegato_caps_the_pause_witness :
  call (setLegato 250 ;; playNote a4) (board 527 0) sounding_player
  = Done (with_notePlayed true
            (with_started false (with_msNoteGap 100 sounding_player)),
          [LedcWrite 0 0; Delay 100]).
Proof.
  apply (setLegato_caps_the_pause 250 (board 527 0) a4 sounding_player);
    [lia | reflexivity | reflexivity | vm_compute; discriminate
     | vm_compute; reflexivity].
Defined.

(** X2: [setVolume] sends nothing.  While a note sounds, the call of
    [playNote] that follows it sends what it would have sent without it,
    so the new volume is not heard in that note; it is written as the duty
    cycle by the call that starts the next note, and by the next trigger
    of the metronome. *)
Theorem setVolume_is_heard_from_the_next_start (v : Z) (e : Env)
    (n : musicNote) (p : MelodyPlayer) :
  U32.wrap (_tempo p) <> 0 -> _notePlayed p = false ->
  call (setVolume v) e p = Done (with_volume v p, []) /\
  (_started p = true ->
   exists q evs,
     call (playNote n) e p = Done (q, evs) /\
     call (setVolume v ;; playNote n) e p = Done (with_volume v q, evs) /\
     (evs = [] \/ evs = [LedcWrite (_channel p) 0; Delay (_msNoteGap p)])) /\
  (_started p = false ->
   tone_set e (_channel p) (note n) (octave n) = true ->
   call (setVolume v ;; playNote n) e p
   = Done (with_started true
             (with_msStart (U32.wrap (millis_at e 0)) (with_volume v p)),
           [LedcWriteNote (_channel p) (note n) (octave n);
            LedcWrite (_channel p) v]) /\
   exists q silence,
     call (setVolume v ;; playBeats) e p
     = Done (q, LedcWriteNote 0 NOTE_A 7 :: LedcWrite (_channel p) v :: silence)).
Proof.
  intros Ht Hp. split; [reflexivity | split].
  - intros Hs.
    change (call (setVolume v ;; playNote n) e p)
      with (call (playNote n) e (with_volume v p)).
    rewrite !call_playNote_sounding by assumption.
    cbn [_msStart _tempo _channel _msNoteGap with_volume].
    destruct (_ >? _); eexists _, _;
      (split; [reflexivity | split; [reflexivity | ]]); auto.
  - intros Hs Htone.
    change (call (setVolume v ;; playNote n) e p)
      with (call (playNote n) e (with_volume v p)).
    change (call (setVolume v ;; playBeats) e p)
      with (call playBeats e (with_volume v p)).
    rewrite call_playNote_idle by assumption.
    cbn [_channel _volume with_volume]. rewrite Htone.
    split; [reflexivity | ].
    rewrite call_playBeats by exact Ht.
    unfold trigger. cbn [_started _channel _volume with_volume]. rewrite Hs.
    eexists _, _. reflexivity.
Qed.

Lemma setVolume_is_heard_from_the_next_start_witness :
  exists q evs,
    call (playNote a4) (board 100 0) sounding_player = Done (q, evs) /\
    call (setVolume 300 ;; playNote a4) (board 100 0) sounding_player
    = Done (with_volume 300 q, evs).
Proof.
  destruct (setVolume_is_heard_from_the_next_start 300 (board 100 0) a4
              sounding_player ltac:(vm_compute; discriminate) eq_refl)
    as [_ [H _]].
  destruct (H eq_refl) as [q [evs [H1 [H2 _]]]].
  exists q, evs. split; assumption.
Defined.

(** X3: each of the eight named tempi is between 50 and 204 beats per
    minute.  After [setTempo(TEMPO)] no call of [playNote] or [playBeats]
    divides by zero, every note value lasts between 18 ms and 7200 ms, and
    the beat period is between 294 ms and 1200 ms. *)
Theorem preset_tempo_is_safe (t : TEMPO) (v : N_LEN) (e : Env)
    (n : musicNote) (p : MelodyPlayer) (s : Machine) :
  call (setTempo_preset t) e p = Done (with_tempo (TEMPO_value t) p, []) /\
  50 <= TEMPO_value t <= 204 /\
  (exists d, durationMs v (TEMPO_value t) e s = Done (d, s) /\ 18 <= d <= 7200) /\
  294 <= period (with_tempo (TEMPO_value t) p) <= 1200 /\
  (exists r, call playBeats e (with_tempo (TEMPO_value t) p) = Done r) /\
  (exists r, call (playNote n) e (with_tempo (TEMPO_value t) p) = Done r).
Proof.
  assert (Hw : U32.wrap (TEMPO_value t) <> 0) by (destruct t; discriminate).
  split; [reflexivity | ]. split; [destruct t; cbn; lia | ]. split.
  - exists (target v (TEMPO_value t)).
    split; [apply durationMs_defined; exact Hw | ].
    destruct t, v; vm_compute; split; discriminate.
  - split; [destruct t; vm_compute; split; discriminate | ]. split.
    + eexists. apply call_playBeats. exact Hw.
    + apply call_playNote_total. exact Hw.
Qed.

(** X4: changing the tempo while a note sounds takes effect in the very
    next call of [playNote]: the note is ended or kept by comparing the
    elapsed time with its duration at the new tempo, whatever the old
    tempo was. *)
Theorem setTempo_retimes_the_sounding_note (t : Z) (e : Env) (n : musicNote)
    (p : MelodyPlayer) :
  0 < t <= 2147483647 -> _notePlayed p = false -> _started p = true ->
  let elapsed := elapsed_at e 0 (_msStart p) in
  let target := 60000 * N_LEN_value (value n) / 16 / t in
  (elapsed <= target ->
   call (setTempo t ;; playNote n) e p = Done (with_tempo t p, [])) /\
  (elapsed > target ->
   call (setTempo t ;; playNote n) e p
   = Done (with_notePlayed true (with_started false (with_tempo t p)),
           [LedcWrite (_channel p) 0; Delay (_msNoteGap p)])).
Proof.
  intros Ht Hp Hs elapsed tgt.
  change (call (setTempo t ;; playNote n) e p)
    with (call (playNote n) e (with_tempo t p)).
  assert (Hw : U32.wrap t = t) by (apply wrap_small; lia).
  rewrite call_playNote_sounding
    by (try assumption; cbn [_tempo with_tempo]; lia).
  cbn [_msStart _tempo _channel _msNoteGap with_tempo]. fold elapsed.
  assert (Htg : target (value n) t = tgt)
    by (unfold target, tgt; rewrite scaled_length, Hw; reflexivity).
  rewrite Htg.
  split; intros H; destruct (Z.gtb_spec elapsed tgt); (reflexivity || lia).
Qed.

(** A quarter note that has sounded for 400 ms goes on at tempo 114 and is
    ended at once when the tempo is raised to 184. *)
Lemma setTempo_retimes_the_sounding_note_witness :
  call (playNote a4) (board 400 0) sounding_player = Done (sounding_player, []) /\
  call (setTempo 184 ;; playNote a4) (board 400 0) sounding_player
  = Done (with_notePlayed true (with_started false (with_tempo 184 sounding_player)),
          [LedcWrite 0 0; Delay 10]).
Proof.
  split; [reflexivity | ].
  apply (setTempo_retimes_the_sounding_note 184 (board 400 0) a4 sounding_player);
    [lia | reflexivity | reflexivity | vm_compute; reflexivity].
Defined.

(** ** Nothing to play *)

Lemma call_playMelody_set_some (r : bool) (e : Env) (m : list musicNote)
    (p : MelodyPlayer) :
  _melody p = Some m ->
  call (playMelody_set r) e p = call (playMelody m (_melodyLength p) r) e p.
Proof.
  intros H. unfold call, playMelody_set, bind, this. cbn [self].
  rewrite H. reflexivity.
Qed.

Lemma call_playMelody_set_none (r : bool) (e : Env) (p : MelodyPlayer) :
  _melody p = None -> call (playMelody_set r) e p = Done (p, []).
Proof.
  intros H. unfold call, playMelody_set, bind, this. cbn [self].
  rewrite H. reflexivity.
Qed.

(** X5: as long as no melody is set, [playMelody(repeat)] changes nothing
    and sends nothing, however often it is called; when a melody of length
    0 (or less) is set, it sends nothing and reads no note either.  Neither
    needs a valid tempo. *)
Theorem nothing_to_play_is_silent (envs : nat -> Env) (reps : nat -> bool)
    (p : MelodyPlayer) (k : nat) :
  (_melody p = None -> loop (set_tune_pass envs reps) k p = Done (p, [])) /\
  (forall m, _melody p = Some m ->
     _melodyLength p <= 0 -> _melodyLength p <= _noteCounter p ->
     exists q,
       loop (set_tune_pass envs reps) k p = Done (q, []) /\
       _started q = _started p /\ _msStart q = _msStart p /\
       _melodyLength p <= _noteCounter q).
Proof.
  split.
  - intros H. induction k as [ | k IH]; [reflexivity | ].
    cbn [loop]. rewrite IH. unfold set_tune_pass.
    rewrite call_playMelody_set_none by exact H. reflexivity.
  - intros m Hm Hlen Hc.
    assert (Hinv : exists q,
               loop (set_tune_pass envs reps) k p = Done (q, []) /\
               _melody q = Some m /\ _melodyLength q = _melodyLength p /\
               _started q = _started p /\ _msStart q = _msStart p /\
               _melodyLength p <= _noteCounter q).
    { induction k as [ | k [q [Hl [Hqm [Hql [Hs [Hst Hqc]]]]]]].
      - exists p. repeat split; auto.
      - cbn [loop]. rewrite Hl. unfold set_tune_pass.
        rewrite (call_playMelody_set_some _ _ m q Hqm).
        rewrite call_playMelody_end by lia.
        destruct (reps k); eexists; (split; [reflexivity | ]);
          cbn; repeat split; auto; lia. }
    destruct Hinv as [q [Hl [_ [_ [Hs [Hst Hqc]]]]]].
    exists q. repeat split; assumption.
Qed.

Lemma nothing_to_play_is_silent_witness :
  loop (set_tune_pass slow_loop (fun _ => true)) 25 (with_tempo 0 fresh_player)
  = Done (with_tempo 0 fresh_player, []).
Proof.
  apply (nothing_to_play_is_silent slow_loop (fun _ => true)
           (with_tempo 0 fresh_player) 25). reflexivity.
Defined.

(** ** Changing the melody *)




(** ** Playing a single note again *)

(** X7: once [playNote] has played a note it does nothing, however often
    it is called.  [rearmNoteAfter(w)] sends nothing; called less than w ms
    after the time it keeps in [_msPrevious] it changes nothing; called w ms
    or more after it (in 32-bit unsigned time) it stores the time of its
    second clock reading and clears the played flag, so that the next call
    of [playNote] starts the note again. *)
Theorem rearmNoteAfter_replays_the_note (w : Z) (e : Env) (envs : nat -> Env)
    (n : musicNote) (p : MelodyPlayer) (k : nat) :
  _notePlayed p = true ->
  loop (fun j => call (playNote n) (envs j)) k p = Done (p, []) /\
  (elapsed_at e 0 (_msPrevious p) < w ->
   call (rearmNoteAfter w) e p = Done (p, []) /\
   call (rearmNoteAfter w ;; playNote n) e p = Done (p, [])) /\
  (w <= elapsed_at e 0 (_msPrevious p) ->
   call (rearmNoteAfter w) e p
   = Done (with_notePlayed false
             (with_msPrevious (U32.wrap (millis_at e 1)) p), []) /\
   (_started p = false ->
    call (rearmNoteAfter w ;; playNote n) e p
    = Done (with_started true
              (with_msStart (U32.wrap (millis_at e 2))
                 (with_notePlayed false
                    (with_msPrevious (U32.wrap (millis_at e 1)) p))),
            [LedcWriteNote (_channel p) (note n) (octave n);
             LedcWrite (_channel p)
               (if tone_set e (_channel p) (note n) (octave n)
                then _volume p else 0)]))).
Proof.
  intros Hp. split; [ | split].
  - induction k as [ | k IH]; [reflexivity | ].
    cbn [loop]. rewrite IH, call_playNote_played by exact Hp. reflexivity.
  - intros Hlt. unfold elapsed_at in Hlt.
    destruct p as [pin ch vol st gap prev cnt started played rnd len tempo mel].
    cbn [_notePlayed _msPrevious] in *. subst played.
    unfold call, rearmNoteAfter, playNote. run_member.
    destruct (Z.geb_spec (U32.sub (U32.wrap (millis_at e 0)) prev) w); [lia | ].
    split; reflexivity.
  - intros Hge. unfold elapsed_at in Hge.
    destruct p as [pin ch vol st gap prev cnt started played rnd len tempo mel].
    cbn [_notePlayed _msPrevious _started] in *. subst played. split.
    + unfold call, rearmNoteAfter. run_member.
      destruct (Z.geb_spec (U32.sub (U32.wrap (millis_at e 0)) prev) w); [ | lia].
      reflexivity.
    + intros ->. unfold call, rearmNoteAfter, playNote. run_member.
      destruct (Z.geb_spec (U32.sub (U32.wrap (millis_at e 0)) prev) w); [ | lia].
      run_member. destruct (tone_set e ch (note n) (octave n)); reflexivity.
Qed.

(** A note played out at time 0 and rearmed with a wait of 1000 ms: not
    yet at 999 ms, and started again at 1000 ms. *)
Lemma rearmNoteAfter_replays_the_note_witness :
  call (rearmNoteAfter 1000 ;; playNote a4) (board 999 0)
       (with_notePlayed true (with_volume 2 fresh_player))
  = Done (with_notePlayed true (with_volume 2 fresh_player), []) /\
  call (rearmNoteAfter 1000 ;; playNote a4) (board 1000 0)
       (with_notePlayed true (with_volume 2 fresh_player))
  = Done (with_started true
            (with_msStart 1000
               (with_notePlayed false
                  (with_msPrevious 1000 (with_volume 2 fresh_player)))),
          [LedcWriteNote 0 NOTE_A 4; LedcWrite 0 2]).
Proof.
  split.
  - apply (rearmNoteAfter_replays_the_note 1000 (board 999 0) slow_loop a4
             (with_notePlayed true (with_volume 2 fresh_player)) 0 eq_refl).
    vm_compute. reflexivity.
  - apply (rearmNoteAfter_replays_the_note 1000 (board 1000 0) slow_loop a4
             (with_notePlayed true (with_volume 2 fresh_player)) 0 eq_refl).
    + vm_compute. discriminate.
    + reflexivity.
Defined.

(** ** The melody loop *)

Lemma sequenced_app (ch gap : Z) (a b c : bool) (evs evs' : list Event) :
  sequenced ch gap a evs b -> sequenced ch gap b evs' c ->
  sequenced ch gap a (evs ++ evs') c.
Proof.
  intros H H'. induction H as [a | n o d evs b _ IH | evs b _ IH].
  - exact H'.
  - cbn [app]. apply sequenced_start, IH, H'.
  - cbn [app]. apply sequenced_stop, IH, H'.
Qed.

Section MelodyLoop.

Variables (envs : nat -> Env) (m : list musicNote) (len : Z).
Variables (reps : nat -> bool) (p0 : MelodyPlayer).

Hypothesis len_ok : len = Z.of_nat (length m).
Hypothesis random_ok : forall j, 0 < len -> 0 <= random_lt (envs j) len < len.
Hypothesis tempo_ok : U32.wrap (_tempo p0) <> 0.
Hypothesis counter_ok : 0 <= _noteCounter p0.

Lemma tune_pass_settled (j : nat) (q : MelodyPlayer) :
  settled len p0 q ->
  exists q' evs,
    tune_pass envs m len reps j q = Done (q', evs) /\ settled len p0 q' /\
    sequenced (_channel p0) (_msNoteGap p0) (_started q) evs (_started q').
Proof.
  intros [Ht [Hch [Hgap [Hrnd Hc]]]].
  assert (Hin : in_melody (envs j) m len q)
    by (repeat split; [exact len_ok | lia | apply random_ok; assumption
                       | apply random_ok; assumption]).
  assert (Htq : U32.wrap (_tempo q) <> 0) by (rewrite Ht; exact tempo_ok).
  unfold tune_pass.
  destruct (call_playMelody_cases (envs j) m len (reps j) q Hin Htq)
    as [[Hend H] | [[n [_ [Hlt [Hs H]]]] | [n [_ [Hlt [Hs H]]]]]].
  - eexists _, _. split; [exact H | ]. split.
    + destruct (reps j); repeat split; cbn; auto; lia.
    + destruct (reps j); cbn; apply sequenced_nil.
  - eexists _, _. split; [exact H | ]. split.
    + repeat split; cbn; auto; lia.
    + rewrite Hs, Hch. cbn. apply sequenced_start, sequenced_nil.
  - destruct (_ >? _); eexists _, _; (split; [exact H | ]); split.
    + repeat split; cbn; auto; lia.
    + rewrite Hs, Hch, Hgap. cbn. apply sequenced_stop, sequenced_nil.
    + repeat split; cbn; auto; lia.
    + cbn. apply sequenced_nil.
Qed.

Lemma tune_loop_settled (k : nat) :
  exists q evs,
    loop (tune_pass envs m len reps) k p0 = Done (q, evs) /\
    settled len p0 q /\
    sequenced (_channel p0) (_msNoteGap p0) (_started p0) evs (_started q).
Proof.
  induction k as [ | k [q [evs [Hl [Hq Hs]]]]].
  - exists p0, []. split; [reflexivity | ]. split.
    + repeat split; lia.
    + apply sequenced_nil.
  - destruct (tune_pass_settled k q Hq) as [q' [evs' [Hp [Hq' Hs']]]].
    exists q', (evs ++ evs'). cbn [loop]. rewrite Hl, Hp.
    split; [reflexivity | ]. split; [exact Hq' | ].
    eapply sequenced_app; eassumption.
Qed.

End MelodyLoop.

(** X8: when the length passed to [playMelody] is the length of the
    array, [random()] stays below it and the tempo is not 0, the melody
    loop never reads outside the array and never divides by zero, however
    long it runs, in normal and in random mode and whether or not the
    calls ask for repetition; the note counter stays between 0 and the
    length (or its initial value, if that was larger), and tempo, channel,
    gap and mode are not changed. *)
Theorem melody_loop_stays_in_the_array (envs : nat -> Env)
    (m : list musicNote) (len : Z) (reps : nat -> bool) (p0 : MelodyPlayer)
    (k : nat) :
  len = Z.of_nat (length m) ->
  (forall j, 0 < len -> 0 <= random_lt (envs j) len < len) ->
  U32.wrap (_tempo p0) <> 0 ->
  0 <= _noteCounter p0 ->
  exists q evs,
    loop (tune_pass envs m len reps) k p0 = Done (q, evs) /\
    0 <= _noteCounter q <= Z.max len (_noteCounter p0) /\
    _tempo q = _tempo p0 /\ _channel q = _channel p0 /\
    _msNoteGap q = _msNoteGap p0 /\ _random q = _random p0.
Proof.
  intros Hlen Hrand Ht Hc.
  destruct (tune_loop_settled envs m len reps p0 Hlen Hrand Ht Hc k)
    as [q [evs [Hl [[H1 [H2 [H3 [H4 H5]]]] _]]]].
  exists q, evs. repeat split; assumption || apply H5.
Qed.

(** The melody of the horn, in random mode with the draw 1, polled every
    600 ms for a minute. *)
Lemma melody_loop_stays_in_the_array_witness :
  exists q evs,
    loop (tune_pass (fun j => board (600 * Z.of_nat j) 1)
                    [mkNote NOTE_Cs 4 N4; mkNote NOTE_Gs 4 N4] 2
                    (fun _ => true))
         100 (with_random true fresh_player) = Done (q, evs) /\
    0 <= _noteCounter q <= 2.
Proof.
  destruct (melody_loop_stays_in_the_array
              (fun j => board (600 * Z.of_nat j) 1)
              [mkNote NOTE_Cs 4 N4; mkNote NOTE_Gs 4 N4] 2 (fun _ => true)
              (with_random true fresh_player) 100)
    as [q [evs [Hl [Hc _]]]].
  - reflexivity.
  - intros j _. cbn. lia.
  - vm_compute. discriminate.
  - cbn. lia.
  - exists q, evs. split; [exact Hl | exact Hc].
Defined.

(** X9: under the same conditions the events of the melody loop are note
    starts and note stops in turn: a start is the frequency followed by
    the duty cycle, a stop is the duty cycle 0 followed by the pause of
    the legato gap, all on the channel of the player; no note is started
    before the one before it was stopped, and none is stopped twice. *)
Theorem melody_loop_starts_and_stops_in_turn (envs : nat -> Env)
    (m : list musicNote) (len : Z) (reps : nat -> bool) (p0 : MelodyPlayer)
    (k : nat) :
  len = Z.of_nat (length m) ->
  (forall j, 0 < len -> 0 <= random_lt (envs j) len < len) ->
  U32.wrap (_tempo p0) <> 0 ->
  0 <= _noteCounter p0 ->
  exists q evs,
    loop (tune_pass envs m len reps) k p0 = Done (q, evs) /\
    sequenced (_channel p0) (_msNoteGap p0) (_started p0) evs (_started q).
Proof.
  intros Hlen Hrand Ht Hc.
  destruct (tune_loop_settled envs m len reps p0 Hlen Hrand Ht Hc k)
    as [q [evs [Hl [_ Hs]]]].
  exists q, evs. split; assumption.
Qed.

Lemma melody_loop_starts_and_stops_in_turn_witness :
  exists q evs,
    loop (tune_pass slow_loop [a4; mkNote REST 5 N8] 2 (fun _ => true)) 7
         (with_volume 2 fresh_player) = Done (q, evs) /\
    sequenced 0 10 false evs (_started q).
Proof.
  destruct (melody_loop_starts_and_stops_in_turn slow_loop
              [a4; mkNote REST 5 N8] 2 (fun _ => true)
              (with_volume 2 fresh_player) 7)
    as [q [evs [Hl Hs]]].
  - reflexivity.
  - intros j _. cbn. lia.
  - vm_compute. discriminate.
  - cbn. lia.
  - exists q, evs. split; [exact Hl | exact Hs].
Defined.

(** X10: with repeat, the call of [playMelody] that finds the note counter
    at the end of the melody only rewinds it, and the call after it starts
    the first note of the melody again (in normal mode): repeating costs
    one call in which nothing is sent. *)
Theorem repeat_rewinds_then_restarts (e e' : Env) (m : list musicNote)
    (len : Z) (n0 : musicNote) (p : MelodyPlayer) :
  nth_error m 0 = Some n0 -> 0 < len -> len <= _noteCounter p ->
  _started p = false -> _random p = false ->
  call (playMelody m len true) e p
  = Done (with_noteCounter 0 (with_notePlayed false p), []) /\
  call (playMelody m len true) e' (with_noteCounter 0 (with_notePlayed false p))
  = Done (with_started true
            (with_msStart (U32.wrap (millis_at e' 0))
               (with_noteCounter 0 (with_notePlayed false p))),
          [LedcWriteNote (_channel p) (note n0) (octave n0);
           LedcWrite (_channel p)
             (if tone_set e' (_channel p) (note n0) (octave n0)
              then _volume p else 0)]).
Proof.
  intros Hn Hlen Hc Hs Hr. split.
  - apply (call_playMelody_end e m len true p Hc).
  - rewrite (call_playMelody_note e' m len true _ n0);
      [ | cbn; lia | unfold chosen; cbn; rewrite Hr; cbn; lia
        | unfold chosen; cbn; rewrite Hr; exact Hn].
    rewrite call_playNote_idle by (cbn; auto).
    cbn. reflexivity.
Qed.

Lemma repeat_rewinds_then_restarts_witness :
  call (playMelody [a4; mkNote REST 5 N8] 2 true) (board 3000 0)
       (with_noteCounter 2 (with_volume 2 fresh_player))
  = Done (with_volume 2 fresh_player, []) /\
  call (playMelody [a4; mkNote REST 5 N8] 2 true) (board 3001 0)
       (with_volume 2 fresh_player)
  = Done (with_started true (with_msStart 3001 (with_volume 2 fresh_player)),
          [LedcWriteNote 0 NOTE_A 4; LedcWrite 0 2]).
Proof.
  exact (repeat_rewinds_then_restarts (board 3000 0) (board 3001 0)
           [a4; mkNote REST 5 N8] 2 a4
           (with_noteCounter 2 (with_volume 2 fresh_player))
           eq_refl ltac:(lia) ltac:(cbn; lia) eq_refl eq_refl).
Defined.

(** ** Metronome and melody on one object *)

(** X11: [playBeats] and [playNote] share the started flag and the start
    time.  When a melody is polled after a call of [playBeats] has
    triggered a click, [playMelody] takes the note at the note counter for
    sounding since the click: it never sends its frequency or the volume,
    and it counts the note as played once its duration has elapsed since
    the click. *)
Theorem melody_after_click_skips_a_start (e0 e1 : Env) (m : list musicNote)
    (len : Z) (repeat : bool) (n : musicNote) (p : MelodyPlayer) :
  (forall k, millis_at e0 k = millis_at e0 0%nat) ->
  0 < _tempo p <= 2147483647 -> _started p = false ->
  0 <= chosen e1 len p -> _noteCounter p < len ->
  nth_error m (Z.to_nat (chosen e1 len p)) = Some n ->
  let q := with_msStart (U32.wrap (millis_at e0 0)) (with_started true p) in
  call playBeats e0 p
  = Done (q, [LedcWriteNote 0 NOTE_A 7; LedcWrite (_channel p) (_volume p)]) /\
  call (playMelody m len repeat) e1 q
  = Done (if elapsed_at e1 0 (U32.wrap (millis_at e0 0))
             >? target (value n) (_tempo p)
          then (with_noteCounter (_noteCounter p + 1)
                  (with_notePlayed true
                     (with_started false (with_notePlayed false q))),
                [LedcWrite (_channel p) 0; Delay (_msNoteGap p)])
          else (with_notePlayed false q, [])).
Proof.
  intros Hinst Ht Hs Hi Hlt Hn q.
  assert (Hw : U32.wrap (_tempo p) = _tempo p) by (apply wrap_small; lia).
  split.
  - rewrite call_playBeats by lia.
    unfold armed, first_check, trigger, period, elapsed_at. rewrite Hs, Hw.
    cbn [_msStart with_msStart].
    rewrite (Hinst 1%nat), (Hinst 2%nat), sub_self.
    assert (0 <= 60000 / _tempo p) by (apply Z.div_pos; lia).
    destruct (Z.gtb_spec 0 (60000 / _tempo p)); [lia | ].
    destruct (Z.gtb_spec 0 4); [lia | ]. reflexivity.
  - rewrite (call_playMelody_note e1 m len repeat q n Hlt Hi Hn).
    rewrite call_playNote_sounding by (cbn; auto; lia).
    cbn [_msStart _tempo _channel _msNoteGap with_notePlayed with_msStart
         with_started q].
    destruct (_ >? _); reflexivity.
Qed.

Lemma melody_after_click_skips_a_start_witness :
  call (playMelody [a4; mkNote REST 5 N8] 2 true) (board 600 0)
       (with_msStart 0 (with_started true metronome_player))
  = Done (with_noteCounter 1
            (with_notePlayed true
               (with_started false (with_msStart 0 metronome_player))),
          [LedcWrite 0 0; Delay 10]).
Proof.
  exact (proj2 (melody_after_click_skips_a_start (board 0 0) (board 600 0)
                  [a4; mkNote REST 5 N8] 2 true a4 metronome_player
                  ltac:(intros k; reflexivity) ltac:(cbn; lia) eq_refl
                  ltac:(cbn; lia) ltac:(cbn; lia) eq_refl)).
Defined.

(** * Properties of the example program *)

(** ** The menu *)

Lemma dispatch_unknown (items : list MenuItem) (w : Pass) (k : ascii)
    (g : Program) :
  ~ In k (map key items) -> dispatch items w k g = Done (g, []).
Proof.
  induction items as [ | item rest IH]; intros Hk; [reflexivity | ].
  cbn [dispatch]. destruct (Ascii.eqb_spec k (key item)) as [E | _].
  - exfalso. apply Hk. left. symmetry. exact E.
  - apply IH. intros H. apply Hk. right. exact H.
Qed.

Lemma dispatch_known (items : list MenuItem) (w : Pass) (item : MenuItem)
    (g : Program) :
  NoDup (map key items) -> In item items ->
  dispatch items w (key item) g = run_action (action item) w (key item) g.
Proof.
  induction items as [ | first rest IH]; intros Hnd Hin; [destruct Hin | ].
  cbn [dispatch]. inversion Hnd as [ | ? ? Hfirst Hrest]; subst.
  destruct Hin as [-> | Hin].
  - rewrite Ascii.eqb_refl. reflexivity.
  - destruct (Ascii.eqb_spec (key item) (key first)) as [E | _].
    + exfalso. apply Hfirst. rewrite <- E. apply in_map. exact Hin.
    + apply IH; assumption.
Qed.

Lemma menu_keys_differ : NoDup (map key menu).
Proof.
  cbn. repeat (constructor; [cbn; intuition discriminate | ]). constructor.
Qed.

(** X12: the sixteen keys of the menu differ, so [doMenu] runs, for the
    key of any item, the action of that item and no other; for a key that
    is not in the menu it only clears the line and leaves the program as
    it is. *)
Theorem doMenu_runs_the_item_of_the_key (w : Pass) (g : Program) :
  (forall item, In item menu ->
     doMenu w (key item) g
     = (say (SerialPrintf
               (String.append carriage_return
                  (String.append "%*c" carriage_return))
               [ArgInt 128; ArgChar " "]) >>
        run_action (action item) w (key item)) g) /\
  (forall k, ~ In k (map key menu) ->
     doMenu w k g
     = Done (g, [SerialPrintf
                   (String.append carriage_return
                      (String.append "%*c" carriage_return))
                   [ArgInt 128; ArgChar " "]])).
Proof.
  split.
  - intros item Hin. unfold doMenu, and_then, say.
    rewrite (dispatch_known menu w item g menu_keys_differ Hin). reflexivity.
  - intros k Hk. unfold doMenu, and_then, say.
    rewrite (dispatch_unknown menu w k g Hk). reflexivity.
Qed.

Lemma doMenu_runs_the_item_of_the_key_witness :
  doMenu (keystroke 0 "x" []) "x" (fst boot)
  = Done (fst boot,
          [SerialPrintf
             (String.append carriage_return
                (String.append "%*c" carriage_return))
             [ArgInt 128; ArgChar " "]]).
Proof.
  apply (doMenu_runs_the_item_of_the_key (keystroke 0 "x" []) (fst boot)).
  cbn. intuition discriminate.
Defined.

(** ** What the menu actions do to the player *)

Lemma well_set_unchanged (p q : MelodyPlayer) :
  _noteCounter q = _noteCounter p -> _melody q = _melody p ->
  _melodyLength q = _melodyLength p -> well_set p -> well_set q.
Proof.
  unfold well_set. intros -> -> ->. auto.
Qed.

Lemma menu_playMelody_effect (w : Pass) (ch : ascii) (g : Program) :
  well_set (player g) ->
  exists q out,
    menu_playMelody w ch g = Done (mkProgram q false (volume g), out) /\
    well_set q /\ _tempo q = _tempo (player g) /\ _volume q = 2 /\
    _noteCounter q = _noteCounter (player g) /\
    _started q = _started (player g).
Proof.
  intros [Hc Hm].
  destruct ch as [b0 b1 b2 b3 b4 b5 b6 b7];
    destruct b0, b1, b2, b3, b4, b5, b6, b7;
    (eexists _, _; split; [reflexivity | ]);
    (split; [split; [exact Hc | try exact Hm; reflexivity] | ]);
    repeat split.
Qed.

Lemma menu_setTempo_effect (w : Pass) (ch : ascii) (g : Program) :
  exists t out,
    menu_setTempo w ch g
    = Done (mkProgram (with_tempo t (player g)) (beatTheBeat g) (volume g), out) /\
    50 <= t <= 204.
Proof.
  unfold menu_setTempo. destruct (read_value w) as [ | v | v];
    repeat match goal with
           | |- context [match ?x with xI _ => _ | xO _ => _ | xH => _ end] =>
               destruct x
           end;
    eexists _, _; (split; [reflexivity | ]); cbn; lia.
Qed.

Lemma menu_setTempo_choice (w : Pass) (ch : ascii) (g : Program) :
  exists t format,
    menu_setTempo w ch g
    = Done (mkProgram (with_tempo t (player g)) (beatTheBeat g) (volume g),
            [OnBoard (Delay 2000); SerialPrintf format [ArgInt t]]) /\
    ((exists T,
        nth_error tempi (Z.to_nat (read_value w - 1)) = Some T /\
        t = TEMPO_value T) /\ 1 <= read_value w <= 8
     \/ t = 60 /\ ~ 1 <= read_value w <= 8).
Proof.
  unfold menu_setTempo. destruct (read_value w) as [ | v | v];
    repeat match goal with
           | |- context [match ?x with xI _ => _ | xO _ => _ | xH => _ end] =>
               destruct x
           end;
    eexists _, _; (split; [reflexivity | ]);
    first [ left; split; [eexists; split; reflexivity | lia]
          | right; split; [reflexivity | lia] ].
Qed.

(** X13: when the number read after [t] is k, the tempo menu stores the
    k-th named tempo of the enumeration for k = 1..8 and 60 for every
    other number, nothing typed included; so it stores a tempo between 50
    and 204; it prints the number it stores and changes nothing else in
    the player, and after it neither [playBeats] nor [playNote] divides
    by zero. *)
Theorem tempo_menu_stores_a_safe_tempo (w : Pass) (ch : ascii)
    (e : Env) (n : musicNote) (g : Program) :
  exists t out,
    menu_setTempo w ch g
    = Done (mkProgram (with_tempo t (player g)) (beatTheBeat g) (volume g), out) /\
    ((exists T,
        nth_error tempi (Z.to_nat (read_value w - 1)) = Some T /\
        t = TEMPO_value T) /\ 1 <= read_value w <= 8
     \/ t = 60 /\ ~ 1 <= read_value w <= 8) /\
    50 <= t <= 204 /\
    (1 <= read_value w <= 8 \/ t = 60) /\
    (exists format,
       out = [OnBoard (Delay 2000); SerialPrintf format [ArgInt t]]) /\
    (exists r, call playBeats e (with_tempo t (player g)) = Done r) /\
    (exists r, call (playNote n) e (with_tempo t (player g)) = Done r).
Proof.
  destruct (menu_setTempo_choice w ch g) as [t [format [H Hc]]].
  exists t. eexists. split; [exact H | ]. split; [exact Hc | ].
  assert (Ht : 50 <= t <= 204).
  { destruct Hc as [[[T [_ ->]] _] | [-> _]]; [destruct T; cbn; lia | lia]. }
  split; [exact Ht | ].
  assert (Hw : U32.wrap (_tempo (with_tempo t (player g))) <> 0)
    by (cbn [_tempo with_tempo]; rewrite wrap_small; lia).
  split; [tauto | ]. split; [exists format; reflexivity | ]. split.
  - eexists. apply call_playBeats. exact Hw.
  - apply call_playNote_total. exact Hw.
Qed.

Lemma wrap_int (v : Z) :
  -2147483648 <= v <= 2147483647 ->
  U32.wrap v = if v <? 0 then v + 4294967296 else v.
Proof.
  intros Hv. unfold U32.wrap. rewrite modulus_val.
  destruct (Z.ltb_spec v 0).
  - symmetry. apply (Z.mod_unique_pos v 4294967296 (-1)); lia.
  - apply Z.mod_small. lia.
Qed.

(** X14: the legato menu converts the number read to [uint32_t] before
    [setLegato] caps it: a number from 0 to 100 is stored as the gap, and
    every other number, negative ones included, gives the gap 100; the
    message printed shows the number read, not the gap stored. *)
Theorem legato_menu_caps_every_number (w : Pass) (ch : ascii) (g : Program) :
  -2147483648 <= read_value w <= 2147483647 ->
  let v := read_value w in
  let gap := if (0 <=? v) && (v <=? 100) then v else 100 in
  menu_setLegato w ch g
  = Done (mkProgram (with_msNoteGap gap (player g)) (beatTheBeat g) (volume g),
          [OnBoard (Delay 2000);
           SerialPrintf "Legato set to %d ms " [ArgInt v]]) /\
  0 <= gap <= 100.
Proof.
  intros Hv v gap.
  assert (Hgap : (if U32.wrap v <=? 100 then U32.wrap v else 100) = gap).
  { unfold gap. rewrite (wrap_int v Hv).
    destruct (Z.ltb_spec v 0), (Z.leb_spec 0 v), (Z.leb_spec v 100);
      cbn [andb]; try lia;
      match goal with
      | |- context [?a <=? 100] => destruct (Z.leb_spec a 100)
      end; lia. }
  split.
  - unfold menu_setLegato, and_then, say, on_player, call, setLegato, update.
    cbn [self sent map app player beatTheBeat volume]. fold v.
    rewrite Hgap. reflexivity.
  - unfold gap. destruct (Z.leb_spec 0 v), (Z.leb_spec v 100); cbn [andb]; lia.
Qed.

Lemma legato_menu_caps_every_number_witness :
  menu_setLegato (keystroke 0 "l" [-5]) "l" (fst boot)
  = Done (mkProgram (with_msNoteGap 100 (player (fst boot))) false 1,
          [OnBoard (Delay 2000);
           SerialPrintf "Legato set to %d ms " [ArgInt (-5)]]).
Proof.
  exact (proj1 (legato_menu_caps_every_number (keystroke 0 "l" [-5]) "l"
                  (fst boot) ltac:(cbn; lia))).
Defined.

(** X15: the volume menu stores the number read, converted to
    [uint32_t], without limiting it to 0..511, so a negative number gives
    a volume of 2^31 or more; and the volume it stores lasts until a
    melody or the metronome is chosen, which set the volume to 2 and to
    100. *)
Theorem volume_menu_is_unlimited_and_overridden (w w' : Pass) (ch ch' : ascii)
    (g : Program) :
  -2147483648 <= read_value w <= 2147483647 ->
  let v := read_value w in
  let stored := if v <? 0 then v + 4294967296 else v in
  menu_setVolume w ch g
  = Done (mkProgram (with_volume stored (player g)) (beatTheBeat g) (volume g),
          [OnBoard (Delay 2000);
           SerialPrint (Formatted "Volume set to %d " [ArgInt v])]) /\
  (0 <= stored <= 511 <-> 0 <= v <= 511) /\
  (exists q out,
     (menu_setVolume w ch >> menu_playMelody w' ch') g
     = Done (mkProgram q false (volume g), out) /\ _volume q = 2) /\
  (exists q out,
     (menu_setVolume w ch >> menu_playBeats w' ch') g
     = Done (mkProgram q true (volume g), out) /\ _volume q = 100).
Proof.
  intros Hv v stored.
  assert (Hs : U32.wrap v = stored) by (apply wrap_int; exact Hv).
  assert (H1 : menu_setVolume w ch g
               = Done (mkProgram (with_volume stored (player g))
                         (beatTheBeat g) (volume g),
                       [OnBoard (Delay 2000);
                        SerialPrint (Formatted "Volume set to %d " [ArgInt v])])).
  { unfold menu_setVolume, and_then, say, on_player, call, setVolume, update.
    cbn [self sent map app player beatTheBeat volume]. fold v.
    rewrite Hs. reflexivity. }
  split; [exact H1 | ]. split; [ | split].
  - unfold stored. destruct (Z.ltb_spec v 0); lia.
  - unfold and_then at 1. rewrite H1.
    destruct ch' as [b0 b1 b2 b3 b4 b5 b6 b7];
      destruct b0, b1, b2, b3, b4, b5, b6, b7;
      eexists _, _; split; reflexivity.
  - unfold and_then at 1. rewrite H1.
    eexists _, _. split; reflexivity.
Qed.

Lemma volume_menu_is_unlimited_and_overridden_witness :
  menu_setVolume (keystroke 0 "v" [-1]) "v" (fst boot)
  = Done (mkProgram (with_volume 4294967295 (player (fst boot))) false 1,
          [OnBoard (Delay 2000);
           SerialPrint (Formatted "Volume set to %d " [ArgInt (-1)])]).
Proof.
  exact (proj1 (volume_menu_is_unlimited_and_overridden
                  (keystroke 0 "v" [-1]) (quiet 0) "v" "a" (fst boot)
                  ltac:(cbn; lia))).
Defined.

(** ** The program as a whole *)

Lemma run_action_effect (a : Action) (w : Pass) (ch : ascii) (g : Program) :
  well_set (player g) ->
  exists g' out,
    run_action a w ch g = Done (g', out) /\ well_set (player g') /\
    (U32.wrap (_tempo (player g)) <> 0 ->
     (a = DoSetTempo1 -> U32.wrap (read_value w) <> 0) ->
     U32.wrap (_tempo (player g')) <> 0).
Proof.
  intros Hg. destruct a; cbn [run_action].
  - destruct (menu_playMelody_effect w ch g Hg) as [q [out [H [Hq [Ht _]]]]].
    eexists _, _. split; [exact H | ]. split; [exact Hq | ].
    cbn [player]. rewrite Ht. auto.
  - eexists _, _. split; [reflexivity | ]. split; [exact Hg | auto].
  - destruct (menu_setTempo_effect w ch g) as [t [out [H Ht]]].
    eexists _, _. split; [exact H | ]. split; [exact Hg | ].
    intros _ _. cbn [player _tempo with_tempo]. rewrite wrap_small; lia.
  - eexists _, _. split; [reflexivity | ]. split; [exact Hg | ].
    intros _ H. cbn. apply H. reflexivity.
  - eexists _, _. split; [reflexivity | ]. split; [exact Hg | auto].
  - eexists _, _. split; [reflexivity | ]. split; [exact Hg | auto].
  - eexists _, _. split; [reflexivity | ]. split; [exact Hg | auto].
  - eexists _, _. split; [reflexivity | ]. split; [exact Hg | auto].
  - eexists _, _. split; [reflexivity | ]. split; [exact Hg | auto].
Qed.

Lemma dispatch_effect (items : list MenuItem) (w : Pass) (k : ascii)
    (g : Program) :
  (forall item, In item items -> action item = DoSetTempo1 -> key item = "b"%char) ->
  well_set (player g) ->
  exists g' out,
    dispatch items w k g = Done (g', out) /\ well_set (player g') /\
    (U32.wrap (_tempo (player g)) <> 0 ->
     (k = "b"%char -> U32.wrap (read_value w) <> 0) ->
     U32.wrap (_tempo (player g')) <> 0).
Proof.
  intros Hb Hg. induction items as [ | item rest IH].
  - exists g, []. split; [reflexivity | ]. split; [exact Hg | auto].
  - cbn [dispatch]. destruct (Ascii.eqb_spec k (key item)) as [E | _].
    + destruct (run_action_effect (action item) w k g Hg)
        as [g' [out [H [Hg' Ht]]]].
      exists g', out. split; [exact H | ]. split; [exact Hg' | ].
      intros Ht0 Hk. apply Ht; [exact Ht0 | ].
      intros Ha. apply Hk. rewrite E. apply Hb; [left; reflexivity | exact Ha].
    + apply IH. intros it Hin. apply Hb. right. exact Hin.
Qed.

Lemma only_b_sets_the_tempo_unchecked (item : MenuItem) :
  In item menu -> action item = DoSetTempo1 -> key item = "b"%char.
Proof.
  cbn. intros H Ha.
  repeat (destruct H as [<- | H]; [try discriminate Ha; reflexivity | ]).
  destruct H.
Qed.

(** The two calls that [loop()] makes on the player. *)
Lemma poll_outcome (e : Env) (beats : bool) (p : MelodyPlayer) :
  well_set p -> fair_random e ->
  (U32.wrap (_tempo p) = 0 /\
   call (if beats then playBeats else playMelody_set true) e p
   = Trap DivideByZero)
  \/
  exists q evs,
    call (if beats then playBeats else playMelody_set true) e p = Done (q, evs) /\
    well_set q /\ _tempo q = _tempo p.
Proof.
  intros Hp Hr. destruct beats.
  - destruct (Z.eq_dec (U32.wrap (_tempo p)) 0) as [Ht | Ht].
    + left. split; [exact Ht | apply call_playBeats_trap; exact Ht].
    + right. rewrite call_playBeats by exact Ht.
      eexists _, _. split; [reflexivity | ]. unfold armed.
      destruct (_ >? period p), (_started p); split;
        try reflexivity; exact Hp.
  - destruct (_melody p) as [m | ] eqn:Hm.
    + rewrite (call_playMelody_set_some true e m p Hm).
      destruct Hp as [Hc Hl]. rewrite Hm in Hl.
      assert (Hin : in_melody e m (_melodyLength p) p)
        by (split; [exact Hl | split; [exact Hc | apply Hr]]).
      assert (Hkeep : forall q,
                 0 <= _noteCounter q -> _melody q = _melody p ->
                 _melodyLength q = _melodyLength p -> well_set q).
      { intros q H1 H2 H3. split; [exact H1 | ]. rewrite H2, Hm, H3. exact Hl. }
      destruct (Z.eq_dec (U32.wrap (_tempo p)) 0) as [Ht | Ht].
      * destruct (Z_le_gt_dec (_melodyLength p) (_noteCounter p)) as [He | Hlt].
        -- right. rewrite call_playMelody_end by exact He.
           eexists _, _. split; [reflexivity | ].
           split; [apply Hkeep; cbn; auto; lia | reflexivity].
        -- apply Z.gt_lt in Hlt.
           destruct (chosen_in_melody e m (_melodyLength p) p Hin Hlt)
             as [Hi [n Hn]].
           rewrite (call_playMelody_note e m _ true p n Hlt (proj1 Hi) Hn).
           destruct (_started p) eqn:Hs.
           ++ left. split; [exact Ht | ].
              rewrite call_playNote_sounding_trap
                by (try assumption; reflexivity).
              reflexivity.
           ++ right. rewrite call_playNote_idle by (try assumption; reflexivity).
              eexists _, _. split; [reflexivity | ].
              split; [apply Hkeep; cbn; auto | reflexivity].
      * right.
        destruct (call_playMelody_cases e m (_melodyLength p) true p Hin Ht)
          as [[_ H] | [[n [_ [_ [_ H]]]] | [n [_ [_ [_ H]]]]]].
        -- eexists _, _. split; [exact H | ].
           split; [apply Hkeep; cbn; auto; lia | reflexivity].
        -- eexists _, _. split; [exact H | ].
           split; [apply Hkeep; cbn; auto | reflexivity].
        -- destruct (_ >? _); eexists _, _; (split; [exact H | ]);
             (split; [apply Hkeep; cbn; auto; lia | reflexivity]).
    + right. rewrite call_playMelody_set_none by exact Hm.
      eexists _, _. split; [reflexivity | ]. split; [exact Hp | reflexivity].
Qed.

Lemma main_loop_outcome (w : Pass) (g : Program) :
  well_set (player g) -> fair_random (answers w) ->
  (main_loop w g = Trap DivideByZero /\
   (U32.wrap (_tempo (player g)) = 0 \/
    typed w = Some "b"%char /\ U32.wrap (read_value w) = 0))
  \/
  exists g' out,
    main_loop w g = Done (g', out) /\ well_set (player g') /\
    (U32.wrap (_tempo (player g)) <> 0 ->
     (typed w = Some "b"%char -> U32.wrap (read_value w) <> 0) ->
     U32.wrap (_tempo (player g')) <> 0).
Proof.
  intros Hg Hr.
  assert (Hmenu : exists g1 out1,
             match typed w with
             | Some k => doMenu w k
             | None => skip
             end g = Done (g1, out1) /\ well_set (player g1) /\
             (U32.wrap (_tempo (player g)) <> 0 ->
              (typed w = Some "b"%char -> U32.wrap (read_value w) <> 0) ->
              U32.wrap (_tempo (player g1)) <> 0)).
  { destruct (typed w) as [k | ].
    - destruct (dispatch_effect menu w k g only_b_sets_the_tempo_unchecked Hg)
        as [g1 [out1 [H [Hg1 Ht]]]].
      eexists g1, _. split; [ | split; [exact Hg1 | ]].
      + unfold doMenu, and_then, say. rewrite H. reflexivity.
      + intros Ht0 Hk. apply Ht; [exact Ht0 | ].
        intros ->. apply Hk. reflexivity.
    - exists g, []. split; [reflexivity | ]. split; [exact Hg | auto]. }
  destruct Hmenu as [g1 [out1 [H1 [Hg1 Ht1]]]].
  unfold main_loop, and_then. rewrite H1. unfold on_player.
  destruct (poll_outcome (answers w) (beatTheBeat g1) (player g1) Hg1 Hr)
    as [[Hz Htrap] | [q [evs [Hdone [Hq Htq]]]]].
  - left. split.
    + destruct (beatTheBeat g1); rewrite Htrap; reflexivity.
    + destruct (Z.eq_dec (U32.wrap (_tempo (player g))) 0) as [H0 | H0];
        [left; exact H0 | right].
      destruct (typed w) as [k | ] eqn:Hk.
      * destruct (Ascii.eqb_spec k "b"%char) as [-> | Hne].
        -- split; [reflexivity | ].
           destruct (Z.eq_dec (U32.wrap (read_value w)) 0) as [E | E];
             [exact E | ].
           exfalso. apply (Ht1 H0); [intros _; exact E | exact Hz].
        -- exfalso. apply (Ht1 H0); [ | exact Hz]. intros [= E]. contradiction.
      * exfalso. apply (Ht1 H0); [ | exact Hz]. discriminate.
  - right.
    exists (mkProgram q (beatTheBeat g1) (volume g1)), (out1 ++ map OnBoard evs).
    split.
    + destruct (beatTheBeat g1); rewrite Hdone; reflexivity.
    + split; [exact Hq | ]. cbn [player]. rewrite Htq. exact Ht1.
Qed.

(** X16: the program never reads outside a melody array.  From its state
    at start-up, or from any state in which the length set is the length
    of the melody set, and whatever is typed, as long as [random()]
    answers below its argument: any number of passes of [loop()] either
    all return, or end in a division by zero. *)
Theorem program_stays_in_its_melodies (ws : nat -> Pass) (k : nat)
    (g : Program) :
  well_set (player (fst boot)) /\
  (well_set (player g) -> (forall j, fair_random (answers (ws j))) ->
   run ws k g = Trap DivideByZero \/
   exists g' out, run ws k g = Done (g', out) /\ well_set (player g')).
Proof.
  split; [split; [cbn; lia | exact I] | ].
  intros Hg Hr. induction k as [ | k [IH | [g1 [out1 [H1 Hg1]]]]].
  - right. exists g, []. split; [reflexivity | exact Hg].
  - left. cbn [run]. rewrite IH. reflexivity.
  - cbn [run]. rewrite H1.
    destruct (main_loop_outcome (ws k) g1 Hg1 (Hr k))
      as [[H _] | [g2 [out2 [H [Hg2 _]]]]].
    + left. rewrite H. reflexivity.
    + right. rewrite H. eexists _, _. split; [reflexivity | exact Hg2].
Qed.

Lemma a_session_is_fair (j : nat) : fair_random (answers (a_session j)).
Proof.
  intros len Hlen.
  destruct j as [ | [ | j]]; cbn [a_session answers rolling random_lt];
    apply Z.mod_pos_bound; exact Hlen.
Qed.

Lemma program_stays_in_its_melodies_witness :
  run a_session 60 (fst boot) = Trap DivideByZero \/
  exists g' out,
    run a_session 60 (fst boot) = Done (g', out) /\ well_set (player g').
Proof.
  apply (program_stays_in_its_melodies a_session 60 (fst boot)).
  - split; [cbn; lia | exact I].
  - exact a_session_is_fair.
Defined.

(** X17: the program goes on for ever unless the tempo becomes 0: from
    start-up, or from any state with a melody set consistently and a
    tempo that is not 0, and as long as [b] is never followed by a number
    that is 0 as a [uint32_t] (nothing typed reads as 0), every pass of
    [loop()] returns, whatever else is typed. *)
Theorem program_runs_unless_the_tempo_is_0 (ws : nat -> Pass) (k : nat)
    (g : Program) :
  well_set (player g) -> U32.wrap (_tempo (player g)) <> 0 ->
  (forall j, fair_random (answers (ws j))) ->
  (forall j, typed (ws j) = Some "b"%char ->
             U32.wrap (read_value (ws j)) <> 0) ->
  exists g' out,
    run ws k g = Done (g', out) /\ well_set (player g') /\
    U32.wrap (_tempo (player g')) <> 0.
Proof.
  intros Hg Ht Hr Hb. induction k as [ | k [g1 [out1 [H1 [Hg1 Ht1]]]]].
  - exists g, []. split; [reflexivity | split; assumption].
  - cbn [run]. rewrite H1.
    destruct (main_loop_outcome (ws k) g1 Hg1 (Hr k))
      as [[_ [Hz | [Hk Hz]]] | [g2 [out2 [H [Hg2 Ht2]]]]].
    + contradiction.
    + exfalso. apply (Hb k Hk). exact Hz.
    + rewrite H. eexists _, _. split; [reflexivity | ].
      split; [exact Hg2 | ]. apply Ht2; [exact Ht1 | apply Hb].
Qed.

Lemma program_runs_unless_the_tempo_is_0_witness :
  exists g' out,
    run a_session 60 (fst boot) = Done (g', out) /\ well_set (player g') /\
    U32.wrap (_tempo (player g')) <> 0.
Proof.
  apply (program_runs_unless_the_tempo_is_0 a_session 60 (fst boot)).
  - split; [cbn; lia | exact I].
  - vm_compute. discriminate.
  - exact a_session_is_fair.
  - intros j. destruct j as [ | [ | j]]; cbn; discriminate.
Defined.

Lemma doMenu_b (w : Pass) (g : Program) :
  exists out,
    doMenu w "b" g
    = Done (mkProgram (with_tempo (read_value w) (player g))
              (beatTheBeat g) (volume g), out).
Proof. eexists. reflexivity. Qed.

(** X18: the tempo menu [b] hands the number read to [setTempo(int)]
    unchecked, and nothing typed reads as 0.  When the number is 0, the
    very pass of [loop()] that runs the menu divides by zero if the
    metronome is beating, and also if a melody is playing and a note of it
    sounds. *)
Theorem bpm_menu_with_0_stops_the_program (w : Pass) (g : Program) :
  typed w = Some "b"%char -> read_value w = 0 ->
  (beatTheBeat g = true -> main_loop w g = Trap DivideByZero) /\
  (forall m,
     beatTheBeat g = false -> _melody (player g) = Some m ->
     well_set (player g) -> fair_random (answers w) ->
     _noteCounter (player g) < _melodyLength (player g) ->
     _started (player g) = true ->
     main_loop w g = Trap DivideByZero).
Proof.
  intros Hk Hv.
  destruct (doMenu_b w g) as [out Hmenu]. rewrite Hv in Hmenu.
  split.
  - intros Hb. unfold main_loop, and_then. rewrite Hk, Hmenu.
    cbn [beatTheBeat]. rewrite Hb. unfold on_player. cbn [player].
    rewrite call_playBeats_trap by reflexivity. reflexivity.
  - intros m Hb Hm Hg Hr Hlt Hs.
    unfold main_loop, and_then. rewrite Hk, Hmenu.
    cbn [beatTheBeat]. rewrite Hb. unfold on_player. cbn [player].
    set (p := with_tempo 0 (player g)).
    rewrite (call_playMelody_set_some true (answers w) m p Hm).
    destruct Hg as [Hc Hl]. rewrite Hm in Hl.
    assert (Hin : in_melody (answers w) m (_melodyLength p) p)
      by (split; [exact Hl | split; [exact Hc | apply Hr]]).
    destruct (chosen_in_melody (answers w) m (_melodyLength p) p Hin Hlt)
      as [Hi [n Hn]].
    rewrite (call_playMelody_note (answers w) m (_melodyLength p) true p n
               Hlt (proj1 Hi) Hn).
    rewrite call_playNote_sounding_trap by (try assumption; reflexivity).
    reflexivity.
Qed.

(** The metronome is chosen, then [b] is typed and no number follows. *)
Lemma bpm_menu_with_0_stops_the_program_witness :
  exists g out,
    main_loop (keystroke 0 "B" []) (fst boot) = Done (g, out) /\
    main_loop (keystroke 10 "b" []) g = Trap DivideByZero.
Proof.
  eexists _, _. split; [reflexivity | ].
  apply (bpm_menu_with_0_stops_the_program (keystroke 10 "b" [])); reflexivity.
Defined.

(** ** The player never falls silent for good *)

Section KeepsPlaying.

Variables (envs : nat -> Env) (m : list musicNote) (len : Z).
Variable p0 : MelodyPlayer.

Hypothesis len_ok : len = Z.of_nat (length m).
Hypothesis not_empty : 0 < len.
Hypothesis random_ok : forall j, 0 < len -> 0 <= random_lt (envs j) len < len.
Hypothesis tempo_ok : U32.wrap (_tempo p0) <> 0.
Hypothesis counter_ok : 0 <= _noteCounter p0.
Hypothesis clock_mono :
  forall j, pass_time envs j <= pass_time envs (S j)
            <= pass_time envs j + 2147483648.
Hypothesis clock_runs : forall T, exists j, T < pass_time envs j.

Local Abbreviation pass := (tune_pass envs m len (fun _ => true)).

Local Abbreviation start_in j :=
  (exists n o d,
     tune_sent envs m len (fun _ => true) p0 j
     = [LedcWriteNote (_channel p0) n o; LedcWrite (_channel p0) d]).

Lemma settled_cases (j : nat) (q : MelodyPlayer) :
  settled len p0 q ->
  (len <= _noteCounter q /\
   pass j q = Done (with_noteCounter 0 (with_notePlayed false q), []))
  \/
  (_noteCounter q < len /\ _started q = false /\
   exists q' n o d,
     pass j q = Done (q', [LedcWriteNote (_channel p0) n o;
                           LedcWrite (_channel p0) d]))
  \/
  (_noteCounter q < len /\ _started q = true /\
   exists n,
     pass j q =
     Done (if elapsed_at (envs j) 0 (_msStart q) >? target (value n) (_tempo q)
           then (with_noteCounter (_noteCounter q + 1)
                   (with_notePlayed true
                      (with_started false (with_notePlayed false q))),
                 [LedcWrite (_channel q) 0; Delay (_msNoteGap q)])
           else (with_notePlayed false q, []))).
Proof.
  intros [Ht [Hch [Hgap [Hrnd Hc]]]].
  assert (Hin : in_melody (envs j) m len q)
    by (repeat split; [exact len_ok | lia | apply random_ok; assumption
                       | apply random_ok; assumption]).
  assert (Htq : U32.wrap (_tempo q) <> 0) by (rewrite Ht; exact tempo_ok).
  unfold tune_pass.
  destruct (call_playMelody_cases (envs j) m len true q Hin Htq)
    as [[Hend H] | [[n [_ [Hlt [Hs H]]]] | [n [_ [Hlt [Hs H]]]]]].
  - left. split; [exact Hend | exact H].
  - right; left. repeat split; try assumption.
    rewrite Hch in H. eexists _, _, _, _. exact H.
  - right; right. repeat split; try assumption. exists n. exact H.
Qed.

Lemma after_pass (j : nat) (q q' : MelodyPlayer) (evs evs' : list Event) :
  loop pass j p0 = Done (q, evs) -> pass j q = Done (q', evs') ->
  loop pass (S j) p0 = Done (q', evs ++ evs').
Proof. intros Hl Hp. cbn [loop]. rewrite Hl, Hp. reflexivity. Qed.

Lemma settled_next (j : nat) (q q' : MelodyPlayer) (evs' : list Event) :
  settled len p0 q -> pass j q = Done (q', evs') -> settled len p0 q'.
Proof.
  intros Hq Hp.
  destruct (tune_pass_settled envs m len (fun _ => true) p0 len_ok random_ok
              tempo_ok j q Hq) as [q2 [evs2 [Hp2 [Hq2 _]]]].
  rewrite Hp in Hp2. injection Hp2 as <- _. exact Hq2.
Qed.

(** A note that sounds is stopped by some later pass. *)
Lemma sounding_is_stopped (d j : nat) (q : MelodyPlayer) (evs : list Event) :
  loop pass j p0 = Done (q, evs) -> settled len p0 q ->
  _noteCounter q < len -> _started q = true ->
  360000 < elapsed_at (envs (j + d)%nat) 0 (_msStart q) ->
  exists j' q' evs',
    (j < j')%nat /\ loop pass j' p0 = Done (q', evs') /\
    settled len p0 q' /\ _started q' = false.
Proof.
  revert j q evs. induction d as [ | d IH]; intros j q evs Hl Hq Hlt Hs He;
    destruct (settled_cases j q Hq)
      as [[Hend _] | [[_ [Hs' _]] | [_ [_ [n H]]]]]; try lia; try congruence;
    pose proof (target_bound (value n) (_tempo q)) as Hb;
    destruct (Z.gtb_spec (elapsed_at (envs j) 0 (_msStart q))
                         (target (value n) (_tempo q))) as [Hgt | Hle].
  - exists (S j). eexists _, _. split; [lia | ].
    split; [exact (after_pass j q _ evs _ Hl H) | ].
    split; [exact (settled_next j q _ _ Hq H) | reflexivity].
  - rewrite Nat.add_0_r in He. lia.
  - exists (S j). eexists _, _. split; [lia | ].
    split; [exact (after_pass j q _ evs _ Hl H) | ].
    split; [exact (settled_next j q _ _ Hq H) | reflexivity].
  - destruct (IH (S j) (with_notePlayed false q) (evs ++ []))
      as [j' [q' [evs' [Hj' H']]]].
    + exact (after_pass j q _ evs _ Hl H).
    + exact (settled_next j q _ _ Hq H).
    + exact Hlt.
    + exact Hs.
    + replace (S j + d)%nat with (j + S d)%nat by lia. exact He.
    + exists j', q', evs'. split; [lia | exact H'].
Qed.

(** From a pass that finds no note sounding, a note is started within
    two passes. *)
Lemma idle_starts (j : nat) (q : MelodyPlayer) (evs : list Event) :
  loop pass j p0 = Done (q, evs) -> settled len p0 q ->
  _started q = false ->
  exists j', (j <= j')%nat /\ start_in j'.
Proof.
  intros Hl Hq Hs.
  destruct (settled_cases j q Hq)
    as [[Hend H] | [[_ [_ [q' [n [o [d H]]]]]] | [_ [Hs' _]]]];
    [ | | congruence].
  - pose proof (after_pass j q _ evs _ Hl H) as Hl1.
    pose proof (settled_next j q _ _ Hq H) as Hq1.
    destruct (settled_cases (S j) _ Hq1)
      as [[Hend1 _] | [[_ [_ [q' [n [o [d H1]]]]]] | [_ [Hs1 _]]]].
    + cbn in Hend1. lia.
    + exists (S j). split; [lia | ]. exists n, o, d.
      unfold tune_sent. rewrite Hl1, H1. reflexivity.
    + cbn in Hs1. congruence.
  - exists j. split; [lia | ]. exists n, o, d.
    unfold tune_sent. rewrite Hl, H. reflexivity.
Qed.

Lemma keeps_starting (j : nat) : exists j', (j <= j')%nat /\ start_in j'.
Proof.
  destruct (tune_loop_settled envs m len (fun _ => true) p0 len_ok random_ok
              tempo_ok counter_ok j) as [q [evs [Hl [Hq _]]]].
  destruct (_started q) eqn:Hs; [ | exact (idle_starts j q evs Hl Hq Hs)].
  assert (Hstop : exists j1 q1 evs1,
             (j <= j1)%nat /\ loop pass j1 p0 = Done (q1, evs1) /\
             settled len p0 q1 /\ _started q1 = false).
  { destruct (settled_cases j q Hq)
      as [[Hend H] | [[_ [Hs' _]] | [Hlt _]]]; [ | congruence | ].
    - pose proof (after_pass j q _ evs _ Hl H) as Hl1.
      pose proof (settled_next j q _ _ Hq H) as Hq1.
      destruct (clock_passes envs m clock_mono clock_runs (S j)
                  (_msStart (with_noteCounter 0 (with_notePlayed false q))))
        as [j1 [Hj1 He]].
      destruct (sounding_is_stopped (j1 - S j) (S j) _ _ Hl1 Hq1)
        as [j' [q' [evs' [Hj' H']]]].
      + cbn. lia.
      + exact Hs.
      + replace (S j + (j1 - S j))%nat with j1 by lia. exact He.
      + exists j', q', evs'. split; [lia | exact H'].
    - destruct (clock_passes envs m clock_mono clock_runs j (_msStart q))
        as [j1 [Hj1 He]].
      destruct (sounding_is_stopped (j1 - j) j q evs Hl Hq Hlt Hs)
        as [j' [q' [evs' [Hj' H']]]].
      + replace (j + (j1 - j))%nat with j1 by lia. exact He.
      + exists j', q', evs'. split; [lia | exact H']. }
  destruct Hstop as [j1 [q1 [evs1 [Hj1 [Hl1 [Hq1 Hs1]]]]]].
  destruct (idle_starts j1 q1 evs1 Hl1 Hq1 Hs1) as [j' [Hj' H']].
  exists j'. split; [lia | exact H'].
Qed.

End KeepsPlaying.

(** X19: with repeat, a melody that is not empty is played without end
    when the tempo is not 0 as [uint32_t], the note counter is not
    negative at the start and [random(len)] answers in 0..len-1: on a
    board whose clock keeps running, successive passes at most 2^31 ms
    apart, after any number of passes of the melody loop there is a later
    pass that starts a note, in normal and in random mode, whatever the
    other members of the player were at the start. *)
Theorem melody_with_repeat_keeps_starting_notes (envs : nat -> Env)
    (m : list musicNote) (len : Z) (p0 : MelodyPlayer) (j : nat) :
  len = Z.of_nat (length m) -> 0 < len ->
  (forall j, 0 < len -> 0 <= random_lt (envs j) len < len) ->
  U32.wrap (_tempo p0) <> 0 -> 0 <= _noteCounter p0 ->
  (forall j, pass_time envs j <= pass_time envs (S j)
             <= pass_time envs j + 2147483648) ->
  (forall T, exists j, T < pass_time envs j) ->
  exists j',
    (j <= j')%nat /\
    exists n o d,
      tune_sent envs m len (fun _ => true) p0 j'
      = [LedcWriteNote (_channel p0) n o; LedcWrite (_channel p0) d].
Proof.
  intros Hlen Hpos Hrand Ht Hc Hmono Hruns.
  exact (keeps_starting envs m len p0 Hlen Hpos Hrand Ht Hc Hmono Hruns j).
Qed.

Lemma melody_with_repeat_keeps_starting_notes_witness :
  exists j',
    (1000 <= j')%nat /\
    exists n o d,
      tune_sent slow_loop [a4; mkNote REST 5 N8] 2 (fun _ => true)
                fresh_player j'
      = [LedcWriteNote 0 n o; LedcWrite 0 d].
Proof.
  apply (melody_with_repeat_keeps_starting_notes slow_loop
           [a4; mkNote REST 5 N8] 2 fresh_player 1000).
  - reflexivity.
  - lia.
  - intros j _. cbn. lia.
  - vm_compute. discriminate.
  - cbn. lia.
  - intros j. unfold pass_time, slow_loop. cbn [millis_at board]. lia.
  - intros T. exists (Z.to_nat (Z.max 0 T + 1)).
    unfold pass_time, slow_loop. cbn [millis_at board]. lia.
Defined.

Section KeepsBeating.

Variables (envs : nat -> Env) (p0 : MelodyPlayer).

Hypothesis instant : forall j k, millis_at (envs j) k = pass_time envs j.
Hypothesis tempo_ok : U32.wrap (_tempo p0) <> 0.
Hypothesis clock_mono :
  forall j, pass_time envs j <= pass_time envs (S j)
            <= pass_time envs j + 2147483648.
Hypothesis clock_runs : forall T, exists j, T < pass_time envs j.

Lemma period_range : 0 <= period p0 <= 60000.
Proof.
  unfold period. pose proof (wrap_range (_tempo p0)). split.
  - apply Z.div_pos; lia.
  - apply Z.div_le_upper_bound; nia.
Qed.

Lemma beating_period (q : MelodyPlayer) :
  same p0 q -> U32.wrap (_tempo q) <> 0 /\ period q = period p0.
Proof.
  intros [Ht _]. unfold period. rewrite Ht. split; [exact tempo_ok | reflexivity].
Qed.

Lemma beating_trigger (j : nat) (q : MelodyPlayer) :
  same p0 q -> _started q = false ->
  beat_pass envs j q =
  Done (with_msStart (U32.wrap (pass_time envs j)) (with_started true q),
        [LedcWriteNote 0 NOTE_A 7; LedcWrite (_channel p0) (_volume p0)]).
Proof.
  intros Hq Hs. destruct (beating_period q Hq) as [Ht HP].
  destruct Hq as [_ [Hc Hv]].
  unfold beat_pass. rewrite call_playBeats by exact Ht.
  unfold armed, first_check, trigger, elapsed_at. rewrite Hs, HP, Hc, Hv.
  cbn [_msStart with_msStart]. rewrite !instant, sub_self.
  pose proof period_range.
  destruct (Z.gtb_spec 0 (period p0)); [lia | ].
  destruct (Z.gtb_spec 0 4); [lia | ]. reflexivity.
Qed.

Lemma beating_armed (j : nat) (q : MelodyPlayer) :
  same p0 q -> _started q = true ->
  beat_pass envs j q =
  Done (if elapsed_at (envs j) 0 (_msStart q) >? period p0
        then with_started false q else q,
        if elapsed_at (envs j) 0 (_msStart q) >? 4
        then [LedcWrite (_channel p0) 0] else []).
Proof.
  intros Hq Hs. destruct (beating_period q Hq) as [Ht HP].
  destruct Hq as [_ [Hc Hv]].
  unfold beat_pass. rewrite call_playBeats by exact Ht.
  unfold armed, first_check, trigger, elapsed_at. rewrite Hs, HP, Hc.
  rewrite !instant. reflexivity.
Qed.

Lemma beating_same (j : nat) :
  exists q evs, loop (beat_pass envs) j p0 = Done (q, evs) /\ same p0 q.
Proof.
  induction j as [ | j [q [evs [Hl Hq]]]].
  - exists p0, []. repeat split.
  - cbn [loop]. rewrite Hl. destruct (_started q) eqn:Hs.
    + rewrite beating_armed by assumption.
      destruct (_ >? period p0); eexists _, _; (split; [reflexivity | exact Hq]).
    + rewrite beating_trigger by assumption.
      eexists _, _. split; [reflexivity | exact Hq].
Qed.

Lemma armed_is_cleared (d j : nat) (q : MelodyPlayer) (evs : list Event) :
  loop (beat_pass envs) j p0 = Done (q, evs) -> same p0 q ->
  _started q = true ->
  360000 < elapsed_at (envs (j + d)%nat) 0 (_msStart q) ->
  exists j' q' evs',
    (j < j')%nat /\ loop (beat_pass envs) j' p0 = Done (q', evs') /\
    same p0 q' /\ _started q' = false.
Proof.
  pose proof period_range as HP.
  revert j q evs. induction d as [ | d IH]; intros j q evs Hl Hq Hs He;
    pose proof (beating_armed j q Hq Hs) as H;
    destruct (Z.gtb_spec (elapsed_at (envs j) 0 (_msStart q))
                         (period p0)) as [Hgt | Hle].
  - exists (S j). eexists _, _. split; [lia | ]. cbn [loop]. rewrite Hl, H.
    split; [reflexivity | split; [exact Hq | reflexivity]].
  - rewrite Nat.add_0_r in He. lia.
  - exists (S j). eexists _, _. split; [lia | ]. cbn [loop]. rewrite Hl, H.
    split; [reflexivity | split; [exact Hq | reflexivity]].
  - destruct (IH (S j) q (evs ++ (if elapsed_at (envs j) 0 (_msStart q) >? 4
                                  then [LedcWrite (_channel p0) 0] else [])))
      as [j' [q' [evs' [Hj' H']]]].
    + cbn [loop]. rewrite Hl, H. reflexivity.
    + exact Hq.
    + exact Hs.
    + replace (S j + d)%nat with (j + S d)%nat by lia. exact He.
    + exists j', q', evs'. split; [lia | exact H'].
Qed.

Lemma keeps_clicking (j : nat) :
  exists j',
    (j <= j')%nat /\
    sent_in envs p0 j'
    = [LedcWriteNote 0 NOTE_A 7; LedcWrite (_channel p0) (_volume p0)].
Proof.
  destruct (beating_same j) as [q [evs [Hl Hq]]].
  assert (Hidle : exists j1 q1 evs1,
             (j <= j1)%nat /\ loop (beat_pass envs) j1 p0 = Done (q1, evs1) /\
             same p0 q1 /\ _started q1 = false).
  { destruct (_started q) eqn:Hs.
    - destruct (clock_passes envs [] clock_mono clock_runs j (_msStart q))
        as [j1 [Hj1 He]].
      destruct (armed_is_cleared (j1 - j) j q evs Hl Hq Hs)
        as [j' [q' [evs' [Hj' H']]]].
      + replace (j + (j1 - j))%nat with j1 by lia. exact He.
      + exists j', q', evs'. split; [lia | exact H'].
    - exists j, q, evs. split; [lia | ]. split; [exact Hl | ].
      split; [exact Hq | exact Hs]. }
  destruct Hidle as [j1 [q1 [evs1 [Hj1 [Hl1 [Hq1 Hs1]]]]]].
  exists j1. split; [exact Hj1 | ].
  unfold sent_in. rewrite Hl1.
  rewrite (beating_trigger j1 q1 Hq1 Hs1).
  reflexivity.
Qed.

End KeepsBeating.

(** X20: the metronome goes on clicking whenever its tempo is not 0 as
    [uint32_t], a negative tempo included: when every pass reads one time
    and the clock keeps running, successive passes at most 2^31 ms apart,
    then after any number of passes of a loop that calls [playBeats]
    there is a later pass that triggers a click, whatever the other
    members of the player were at the start, a note left sounding by a
    melody included. *)
Theorem metronome_keeps_clicking (envs : nat -> Env) (p0 : MelodyPlayer)
    (j : nat) :
  (forall j k, millis_at (envs j) k = pass_time envs j) ->
  U32.wrap (_tempo p0) <> 0 ->
  (forall j, pass_time envs j <= pass_time envs (S j)
             <= pass_time envs j + 2147483648) ->
  (forall T, exists j, T < pass_time envs j) ->
  exists j',
    (j <= j')%nat /\
    sent_in envs p0 j'
    = [LedcWriteNote 0 NOTE_A 7; LedcWrite (_channel p0) (_volume p0)].
Proof.
  intros Hinst Ht Hmono Hruns.
  exact (keeps_clicking envs p0 Hinst Ht Hmono Hruns j).
Qed.

Lemma metronome_keeps_clicking_witness :
  exists j',
    (500 <= j')%nat /\
    sent_in steady_loop sounding_player j'
    = [LedcWriteNote 0 NOTE_A 7; LedcWrite 0 2].
Proof.
  apply (metronome_keeps_clicking steady_loop sounding_player 500).
  - intros j k. reflexivity.
  - vm_compute. discriminate.
  - intros j. unfold pass_time, steady_loop. cbn [millis_at board]. lia.
  - intros T. exists (Z.to_nat (Z.max 0 T + 1)).
    unfold pass_time, steady_loop. cbn [millis_at board]. lia.
Defined.
